(** * Tile areas and tile iterators (map/tilearea.h)

    A shallow embedding of [struct TileArea], of the iterator base class
    [TileIterator] and of its two subclasses, followed by the properties
    established about them.  Unsigned machine integers are integers of [Z]
    whose wrap-around is written out at every operation that can overflow. *)

From Stdlib Require Import ZArith Lia.
From stdpp Require Import base decidable option list list_numbers gmap.

Local Open Scope Z_scope.

(** ** Machine integers *)

Definition uint8 (z : Z) : Z := z mod 2 ^ 8.
Definition uint16 (z : Z) : Z := z mod 2 ^ 16.
Definition uint (z : Z) : Z := z mod 2 ^ 32.

Definition is_uint16 (z : Z) : Prop := 0 <= z < 2 ^ 16.
Definition is_uint (z : Z) : Prop := 0 <= z < 2 ^ 32.

(** [TileIndex] is a 32-bit unsigned linear index. *)
Definition TileIndex : Type := Z.

(** [static const TileIndex INVALID_TILE = (TileIndex)-1]. *)
Definition INVALID_TILE : TileIndex := uint (-1).

(** ** Grid addressing (map/coord.h) *)

(** The dimensions of the map, a global of the program. *)
Class Map : Type := { MapSizeX : Z; MapSizeY : Z }.

(** A map has at least two columns and two rows, and every one of its cells
    has a 32-bit index other than the reserved one. *)
Definition map_ok `{Map} : Prop :=
  1 < MapSizeX /\ 1 < MapSizeY /\ MapSizeX * MapSizeY < 2 ^ 32.

Section Coord.
Context `{Map}.

(** Modelled from the spec: [TileXY] of map/coord.h is missing; it is the
    spec's [compose(x,y) -> cell], the linear index of column [x] in row
    [y], rows being [MapSizeX] cells apart, as an unsigned 32-bit value. *)
Definition TileXY (x y : Z) : TileIndex := uint (y * MapSizeX + x).

(** Modelled from the spec: [TileX] and [TileY] of map/coord.h are missing;
    they are the two halves of the spec's [decompose(cell) -> (x,y)], the
    inverse of [TileXY] on the cells of the map.  The spec makes decomposing
    the invalid cell a violated precondition; the two functions are total
    here, and the properties below that speak of the coordinates of a cell
    take the cell to be other than the invalid one. *)
Definition TileX (tile : TileIndex) : Z := tile mod MapSizeX.
Definition TileY (tile : TileIndex) : Z := tile / MapSizeX.

(** Modelled from the spec: [TileDiffXY] of map/coord.h is missing; it is
    the spec's linear-index delta of a move by [x] columns and [y] rows. *)
Definition TileDiffXY (x y : Z) : Z := y * MapSizeX + x.

(** Modelled from the spec: the macros [TILE_ADD] and [TILE_ADDXY] of
    map/coord.h are missing; they step a linear index by a delta, in
    unsigned 32-bit arithmetic. *)
Definition TILE_ADD (tile : TileIndex) (diff : Z) : TileIndex :=
  uint (tile + diff).
Definition TILE_ADDXY (tile : TileIndex) (x y : Z) : TileIndex :=
  TILE_ADD tile (TileDiffXY x y).
End Coord.

(** Modelled from the spec: [ClampU] of core/math_func.hpp is missing; it is
    the spec's [clamp(value, lo, hi) -> value] on unsigned integers. *)
Definition ClampU (a min max : Z) : Z :=
  if a <=? min then min else if max <=? a then max else a.

(** ** struct TileArea *)

Module TileArea.
Record t : Type := Build { tile : TileIndex; w : Z; h : Z }.

(** The fields hold values of their C++ types. *)
Definition wf (ta : t) : Prop :=
  is_uint (tile ta) /\ is_uint16 (w ta) /\ is_uint16 (h ta).

(** [TileArea() {}]: the constructor has no initialiser list and an empty
    body, so the object is whatever its storage [raw] held before. *)
Definition default (raw : t) : t := raw.

(** [TileArea(TileIndex tile, uint8 w, uint8 h) : tile(tile), w(w), h(h)]:
    the arguments [w_arg] and [h_arg] of a caller are converted to the
    parameter type [uint8] and then widened into the 16-bit fields. *)
Definition make (tile : TileIndex) (w_arg h_arg : Z) : t :=
  {| tile := tile; w := uint16 (uint8 w_arg); h := uint16 (uint8 h_arg) |}.

(** [void Clear()], an update of the three fields of [this]. *)
Definition Clear (this : t) : t :=
  {| tile := INVALID_TILE; w := 0; h := 0 |}.

Section Queries.
Context `{Map}.

(** [TileIndex GetCenterTile() const]. *)
Definition GetCenterTile (this : t) : TileIndex :=
  TILE_ADDXY (tile this) (w this ÷ 2) (h this ÷ 2).

(** [TileIndex get_closest_tile(TileIndex t) const]. *)
Definition get_closest_tile (this : t) (t : TileIndex) : TileIndex :=
  if decide (tile this = INVALID_TILE) then INVALID_TILE else
  let x := TileX (tile this) in
  let x := ClampU (TileX t) x (uint (x + w this - 1)) in
  let y := TileY (tile this) in
  let y := ClampU (TileY t) y (uint (y + h this - 1)) in
  TileXY x y.
End Queries.
End TileArea.

(** ** Faults

    The places where a run of the modelled code can stop abnormally: the two
    assertions of the header, and the use of a pointer to no iterator. *)

Inductive site : Set :=
  | at_operator_inc  (* assert in TileIterator::operator++ *)
  | at_Next          (* assert in OrthogonalTileIterator::Next *)
  | at_dereference.  (* no iterator object at the address *)

Inductive result (A : Type) : Type :=
  | Ok (a : A)
  | Trap (s : site).
Arguments Ok {A} a.
Arguments Trap {A} s.

#[global] Instance result_ret : MRet result := @Ok.
#[global] Instance result_bind : MBind result := fun A B f r =>
  match r with Ok a => f a | Trap s => Trap s end.
#[global] Instance result_fmap : FMap result := fun A B f r =>
  match r with Ok a => Ok (f a) | Trap s => Trap s end.

(** ** class TileIterator

    The base class is an interface of two members, the conversion to
    [TileIndex] and the pure virtual [Next]; [operator++] is written once
    above them. *)

Class TileIterator (I : Type) : Type := {
  current : I -> TileIndex;
  Next : I -> result I
}.

(** [TileIterator& operator ++()]. *)
Definition operator_inc {I} `{TileIterator I} (this : I) : result I :=
  if decide (current this = INVALID_TILE) then Trap at_operator_inc
  else Next this.

(** The loop [for (...; var != INVALID_TILE; ++var)] of [TILE_AREA_LOOP],
    from an iterator [var] on: the cells the body sees, in order, and the
    iterator the loop leaves.  [None] when [fuel] rounds do not finish it or
    an assertion fails on the way. *)
Fixpoint loop_from {I} `{TileIterator I} (fuel : nat) (var : I)
  : option (list TileIndex * I) :=
  if decide (current var = INVALID_TILE) then Some ([], var) else
  match fuel with
  | O => None
  | S fuel' =>
    match operator_inc var with
    | Ok var' =>
      match loop_from fuel' var' with
      | Some (cells, last) => Some (current var :: cells, last)
      | None => None
      end
    | Trap _ => None
    end
  end.

(** ** class OrthogonalTileIterator *)

Module OrthogonalTileIterator.
Record t : Type :=
  Build { tile : TileIndex; w : Z; rowdiff : Z; x : Z; y : Z }.

(** [inline void Next()]: [--this->x] and [--this->y] are decrements of
    unsigned fields, [this->tile++] and [this->tile += this->rowdiff] are
    additions on the unsigned index. *)
Definition Next (this : t) : result t :=
  if decide (tile this = INVALID_TILE) then Trap at_Next else
  let x' := uint (x this - 1) in
  if 0 <? x' then
    Ok {| tile := uint (tile this + 1); w := w this;
          rowdiff := rowdiff this; x := x'; y := y this |}
  else
    let y' := uint (y this - 1) in
    if 0 <? y' then
      Ok {| tile := uint (tile this + rowdiff this); w := w this;
            rowdiff := rowdiff this; x := w this; y := y' |}
    else
      Ok {| tile := INVALID_TILE; w := w this;
            rowdiff := rowdiff this; x := x'; y := y' |}.

(** [OrthogonalTileIterator(const TileArea &ta)]. *)
Definition make `{Map} (ta : TileArea.t) : t :=
  {| tile := if (TileArea.w ta =? 0) || (TileArea.h ta =? 0)
             then INVALID_TILE else TileArea.tile ta;
     w := TileArea.w ta;
     rowdiff := uint (TileDiffXY 1 1 - TileArea.w ta);
     x := TileArea.w ta;
     y := TileArea.h ta |}.

(** The implicit copy constructor, used by [Clone] on [*this]. *)
Definition copy (this : t) : t :=
  {| tile := tile this; w := w this; rowdiff := rowdiff this;
     x := x this; y := y this |}.

#[global] Instance iterator : TileIterator t :=
  Build_TileIterator t tile Next.
End OrthogonalTileIterator.

(** [TILE_AREA_LOOP(var, ta)]. *)
Definition TILE_AREA_LOOP `{Map} (fuel : nat) (ta : TileArea.t)
  : option (list TileIndex * OrthogonalTileIterator.t) :=
  loop_from fuel (OrthogonalTileIterator.make ta).

(** ** class DiagonalTileIterator *)

Module DiagonalTileIterator.
Record t : Type :=
  Build { tile : TileIndex; x : Z; y : Z; odd : bool; s1 : Z;
          s2x : Z; s2y : Z; w : Z; n : Z; m : Z }.

(** The implicit copy constructor, used by [Clone] on [*this]. *)
Definition copy (this : t) : t :=
  {| tile := tile this; x := x this; y := y this; odd := odd this;
     s1 := s1 this; s2x := s2x this; s2y := s2y this; w := w this;
     n := n this; m := m this |}.
End DiagonalTileIterator.

(** ** Iterator objects

    [Clone] allocates, so iterators are also modelled as objects of a heap:
    an address holds an iterator of one of the two classes. *)

Inductive object : Type :=
  | Orthogonal (o : OrthogonalTileIterator.t)
  | Diagonal (d : DiagonalTileIterator.t).

Definition loc : Type := positive.
Abbreviation heap := (gmap loc object).

(** [new T(v)]: a fresh address holding [v]. *)
Definition new (σ : heap) (v : object) : loc * heap :=
  let q := fresh (dom σ) in (q, <[q := v]> σ).

Section Objects.
(** [DiagonalTileIterator::Next] is declared in the header and defined in
    tilearea.cpp; it is a parameter here, a function of the object that
    returns the object as updated or stops at an assertion. *)
Variable DiagonalNext :
  DiagonalTileIterator.t -> result DiagonalTileIterator.t.

#[local] Instance diagonal_iterator : TileIterator DiagonalTileIterator.t :=
  {| current := DiagonalTileIterator.tile; Next := DiagonalNext |}.

(** Virtual dispatch on the class of the object. *)
#[local] Instance object_iterator : TileIterator object :=
  {| current := fun this =>
       match this with
       | Orthogonal o => current o
       | Diagonal d => current d
       end;
     Next := fun this =>
       match this with
       | Orthogonal o => Orthogonal <$> Next o
       | Diagonal d => Diagonal <$> Next d
       end |}.

(** [virtual TileIterator *Clone() const], in both subclasses
    [return new C( *this )]. *)
Definition Clone_object (this : object) : object :=
  match this with
  | Orthogonal o => Orthogonal (OrthogonalTileIterator.copy o)
  | Diagonal d => Diagonal (DiagonalTileIterator.copy d)
  end.

Definition Clone (σ : heap) (p : loc) : result (loc * heap) :=
  match σ !! p with
  | Some this => Ok (new σ (Clone_object this))
  | None => Trap at_dereference
  end.

(** The current cell of the iterator at [p]. *)
Definition read (σ : heap) (p : loc) : result TileIndex :=
  match σ !! p with
  | Some this => Ok (current this)
  | None => Trap at_dereference
  end.

(** [operator++] on the iterator at [p]: the object is updated in place. *)
Definition advance (σ : heap) (p : loc) : result heap :=
  match σ !! p with
  | Some this => this' ← operator_inc this; Ok (<[p := this']> σ)
  | None => Trap at_dereference
  end.

(** [n] times [operator++] at [p], reading the current cell after each. *)
Fixpoint advance_n (n : nat) (σ : heap) (p : loc)
  : result (list TileIndex * heap) :=
  match n with
  | O => Ok ([], σ)
  | S n' =>
    σ' ← advance σ p;
    c ← read σ' p;
    '(cells, σ'') ← advance_n n' σ' p;
    Ok (c :: cells, σ'')
  end.
End Objects.

(** [n] times [operator++] on an iterator value. *)
Fixpoint operator_inc_n {I} `{TileIterator I} (n : nat) (this : I) : result I :=
  match n with
  | O => Ok this
  | S n' => this' ← operator_inc this; operator_inc_n n' this'
  end.

(** The walk over the area of origin column [x0] of row [y0], of [W] columns
    and [H] rows, as a function of the number [k] of advances made: the
    current cell, and the whole iterator. *)
Section Position.
Context {map : Map}.
Variables x0 y0 W H : Z.

Definition cell_at (k : Z) : TileIndex := TileXY (x0 + k mod W) (y0 + k / W).

Definition state_at (k : Z) : OrthogonalTileIterator.t :=
  {| OrthogonalTileIterator.tile := cell_at k;
     OrthogonalTileIterator.w := W;
     OrthogonalTileIterator.rowdiff := uint (TileDiffXY 1 1 - W);
     OrthogonalTileIterator.x := W - k mod W;
     OrthogonalTileIterator.y := H - k / W |}.
End Position.

(** The same walk for an area anywhere, on the map or off it: the index that
    [k] advances from the origin [t] reach by stepping the linear index, and
    the whole iterator there. *)
Section Walk.
Context {map : Map}.
Variables t W H : Z.

Definition index_at (k : Z) : TileIndex :=
  uint (t + k mod W + (k / W) * MapSizeX).

Definition walk_at (k : Z) : OrthogonalTileIterator.t :=
  {| OrthogonalTileIterator.tile := index_at k;
     OrthogonalTileIterator.w := W;
     OrthogonalTileIterator.rowdiff := uint (TileDiffXY 1 1 - W);
     OrthogonalTileIterator.x := W - k mod W;
     OrthogonalTileIterator.y := H - k / W |}.
End Walk.

(** ** Train depots (misctile_cmd.cpp) *)

(** [enum DiagDirection]; the type is declared in direction_type.h. *)
Inductive DiagDirection : Set :=
  | DIAGDIR_NE | DIAGDIR_SE | DIAGDIR_SW | DIAGDIR_NW.

Definition _fractcoords_enter_x : list Z := [0xA; 0x8; 0x4; 0x8].
Definition _fractcoords_enter_y : list Z := [0x8; 0x4; 0x8; 0xA].
Definition _deltacoord_leaveoffset_x : list Z := [-1; 0; 1; 0].
Definition _deltacoord_leaveoffset_y : list Z := [0; 1; 0; -1].

(** The fields of [Train] that [TicksToLeaveDepot] reads. *)
Module Train.
Record t : Type := Build { tile : TileIndex; x_pos : Z; y_pos : Z }.
End Train.

Section Depot.
(** The value of an enumerator, by which the four tables are indexed; it is
    fixed in direction_type.h. *)
Variable DiagDirection_value : DiagDirection -> nat.
(** [GetRailDepotDirection] of rail_map.h reads the map array. *)
Variable GetRailDepotDirection : TileIndex -> DiagDirection.
(** [Train::CalcNextVehicleOffset] of train.h. *)
Variable CalcNextVehicleOffset : Train.t -> Z.

(** [table[dir]]. *)
Definition at_dir (table : list Z) (dir : DiagDirection) : Z :=
  nth (DiagDirection_value dir) table 0.

(** [int TicksToLeaveDepot(const Train *v)]; the arithmetic is on [int],
    exact as long as it does not overflow. *)
Definition TicksToLeaveDepot (v : Train.t) : Z :=
  let dir := GetRailDepotDirection (Train.tile v) in
  let length := CalcNextVehicleOffset v in
  match dir with
  | DIAGDIR_NE =>
      Z.land (Train.x_pos v) 0x0F - (at_dir _fractcoords_enter_x dir - (length + 1))
  | DIAGDIR_SE =>
      - (Z.land (Train.y_pos v) 0x0F - (at_dir _fractcoords_enter_y dir + (length + 1)))
  | DIAGDIR_SW =>
      - (Z.land (Train.x_pos v) 0x0F - (at_dir _fractcoords_enter_x dir + (length + 1)))
  | DIAGDIR_NW =>
      Z.land (Train.y_pos v) 0x0F - (at_dir _fractcoords_enter_y dir - (length + 1))
  end.

(** The locals [fract_coord_leave_x] and [fract_coord_leave_y] of
    [VehicleEnter_Misc], the point where the following wagon is activated:
    an [int] expression stored in a [byte]. *)
Definition fract_coord_leave_x (dir : DiagDirection) (length : Z) : Z :=
  uint8 (at_dir _fractcoords_enter_x dir
         + (length + 1) * at_dir _deltacoord_leaveoffset_x dir).
Definition fract_coord_leave_y (dir : DiagDirection) (length : Z) : Z :=
  uint8 (at_dir _fractcoords_enter_y dir
         + (length + 1) * at_dir _deltacoord_leaveoffset_y dir).
End Depot.

(** The numbering of the enumerators used in runs on concrete inputs. *)
Definition DiagDirection_order (dir : DiagDirection) : nat :=
  match dir with
  | DIAGDIR_NE => 0 | DIAGDIR_SE => 1 | DIAGDIR_SW => 2 | DIAGDIR_NW => 3
  end%nat.

(** A map of 64 by 64 cells, for runs on concrete inputs. *)
Definition map64 : Map := {| MapSizeX := 64; MapSizeY := 64 |}.

(** * Properties *)

(** ** Machine integers and addressing *)

(** Closes the goals that a concrete value fits its C++ type. *)
Ltac in_range :=
  unfold TileArea.wf, is_uint, is_uint16; cbn; lia.

Lemma INVALID_TILE_eq : INVALID_TILE = 2 ^ 32 - 1.
Proof. reflexivity. Qed.

Lemma uint_id (z : Z) : is_uint z -> uint z = z.
Proof. intros Hz. apply Z.mod_small. exact Hz. Qed.

Lemma map64_ok : @map_ok map64.
Proof. unfold map_ok; simpl. lia. Qed.

Lemma ClampU_max_min (a lo hi : Z) :
  lo <= hi -> ClampU a lo hi = Z.max lo (Z.min a hi).
Proof.
  intros Hle. unfold ClampU.
  destruct (Z.leb_spec a lo), (Z.leb_spec hi a); lia.
Qed.

Lemma ClampU_inside (a lo hi : Z) : lo <= a <= hi -> ClampU a lo hi = a.
Proof.
  intros Ha. unfold ClampU.
  destruct (Z.leb_spec a lo), (Z.leb_spec hi a); lia.
Qed.

Section Addressing.
Context `{Map}.

Lemma TileX_range (tile : TileIndex) : 0 < MapSizeX -> 0 <= TileX tile < MapSizeX.
Proof. intros Hx. apply Z.mod_pos_bound. exact Hx. Qed.

Lemma TileY_range (tile : TileIndex) :
  1 < MapSizeX -> is_uint tile -> 0 <= TileY tile < 2 ^ 31.
Proof.
  intros Hx [Hlo Hhi]. unfold TileY. split.
  - apply Z.div_pos; lia.
  - apply Z.div_lt_upper_bound; lia.
Qed.

(** Composing the coordinates of a cell gives the cell back. *)
Lemma TileXY_TileX_TileY (tile : TileIndex) :
  0 < MapSizeX -> is_uint tile -> TileXY (TileX tile) (TileY tile) = tile.
Proof.
  intros Hx Ht. unfold TileXY, TileX, TileY.
  rewrite (Z.mul_comm (tile / MapSizeX)), <- Z.div_mod by lia.
  apply uint_id, Ht.
Qed.

(** On the map, [TileXY] does not wrap around. *)
Lemma TileXY_on_map (x y : Z) :
  map_ok -> 0 <= x < MapSizeX -> 0 <= y < MapSizeY ->
  TileXY x y = y * MapSizeX + x /\ 0 <= y * MapSizeX + x < 2 ^ 32 - 1.
Proof.
  intros (Hx & Hy & Hxy) Hxr Hyr.
  assert (0 <= y * MapSizeX + x < 2 ^ 32 - 1) as Hr by nia.
  split; [|exact Hr]. apply uint_id. unfold is_uint. lia.
Qed.
End Addressing.

(** ** TileArea *)

(** C10: the constructor from an origin and an extent stores, for every
    argument value, the argument reduced modulo 256 in the 16-bit field, so
    no stored extent exceeds 255. *)
Theorem make_extent_mod_256 (tile : TileIndex) (w_arg h_arg : Z) :
  let ta := TileArea.make tile w_arg h_arg in
  TileArea.tile ta = tile /\
  TileArea.w ta = w_arg mod 256 /\ TileArea.h ta = h_arg mod 256 /\
  0 <= TileArea.w ta <= 255 /\ 0 <= TileArea.h ta <= 255.
Proof.
  cbn. unfold uint16, uint8. change (2 ^ 8) with 256.
  pose proof (Z.mod_pos_bound w_arg 256 ltac:(lia)) as Hw.
  pose proof (Z.mod_pos_bound h_arg 256 ltac:(lia)) as Hh.
  rewrite !(Z.mod_small (_ mod 256) (2 ^ 16)) by lia.
  repeat split; lia.
Qed.

(** C9: the default constructor initialises no field: each field holds what
    the storage held, which need not be the cleared state, and for every
    origin there is a default-constructed area of that origin whose width
    and height are both nonzero; [Clear] then establishes the empty state
    whatever the area was. *)
Theorem default_initialises_nothing :
  (forall raw : TileArea.t,
     TileArea.tile (TileArea.default raw) = TileArea.tile raw /\
     TileArea.w (TileArea.default raw) = TileArea.w raw /\
     TileArea.h (TileArea.default raw) = TileArea.h raw) /\
  (exists raw : TileArea.t,
     TileArea.wf raw /\ TileArea.default raw <> TileArea.Clear raw) /\
  (forall (tile : TileIndex) (w h : Z),
     exists raw : TileArea.t,
       TileArea.default raw = TileArea.Build tile w h) /\
  (forall tile : TileIndex,
     exists raw : TileArea.t,
       TileArea.tile (TileArea.default raw) = tile /\
       TileArea.w (TileArea.default raw) <> 0 /\
       TileArea.h (TileArea.default raw) <> 0) /\
  (forall raw : TileArea.t,
     TileArea.Clear (TileArea.default raw) = TileArea.Build INVALID_TILE 0 0).
Proof.
  repeat apply conj.
  - intros raw. unfold TileArea.default. auto.
  - exists (TileArea.Build 7 3 2). split.
    + in_range.
    + unfold TileArea.default, TileArea.Clear. intros Heq.
      apply (f_equal TileArea.w) in Heq. cbn in Heq. lia.
  - intros tile w h. exists (TileArea.Build tile w h). reflexivity.
  - intros tile. exists (TileArea.Build tile 1 1). cbn. repeat split; lia.
  - intros raw. reflexivity.
Qed.

(** C7: on an area that has been cleared, [GetCenterTile] returns the
    invalid cell. *)
Theorem GetCenterTile_Clear `{Map} (ta : TileArea.t) :
  TileArea.GetCenterTile (TileArea.Clear ta) = INVALID_TILE.
Proof.
  unfold TileArea.GetCenterTile, TileArea.Clear; cbn [TileArea.tile TileArea.w TileArea.h].
  unfold TILE_ADDXY, TILE_ADD, TileDiffXY.
  change (0 ÷ 2) with 0. rewrite Z.mul_0_l, !Z.add_0_r.
  reflexivity.
Qed.

(** The guard of [get_closest_tile]: an area whose origin is the invalid
    cell, which is what [Clear] leaves, has the invalid cell as its closest
    tile, for every reference cell. *)
Lemma get_closest_tile_invalid_origin `{Map} (ta : TileArea.t) (t : TileIndex) :
  TileArea.tile ta = INVALID_TILE ->
  TileArea.get_closest_tile ta t = INVALID_TILE.
Proof.
  intros Htile. unfold TileArea.get_closest_tile.
  destruct (decide (TileArea.tile ta = INVALID_TILE)) as [_|Hne]; [reflexivity|].
  contradiction.
Qed.

(** The guard does not cover the areas of width 0 or height 0 whose origin
    is a cell: it is not so that every such area has the invalid cell as its
    closest tile. *)
Lemma get_closest_tile_empty_counterexample :
  ~ (forall (M : Map) (ta : TileArea.t) (t : TileIndex),
       @map_ok M -> TileArea.wf ta -> is_uint t ->
       TileArea.w ta = 0 \/ TileArea.h ta = 0 ->
       @TileArea.get_closest_tile M ta t = INVALID_TILE).
Proof.
  intros Hall.
  specialize (Hall map64 (TileArea.Build 0 0 0) 5 map64_ok).
  assert (@TileArea.get_closest_tile map64 (TileArea.Build 0 0 0) 5 = 5) as Hrun
    by reflexivity.
  rewrite Hrun in Hall.
  assert (5 = INVALID_TILE) as Habs.
  { apply Hall.
    - in_range.
    - in_range.
    - left. reflexivity. }
  discriminate Habs.
Qed.

(** C3: the code at two empty areas of the 64 by 64 map.  The area of origin
    cell 0 with width 0 and height 0 has cell 5 as its closest tile to cell
    5, and the area of origin (2,3) with width 0 and height 3 has cell 321,
    the cell (1,5) in the column before the origin, as its closest tile to
    cell 647; neither is the invalid cell that the comment of
    [get_closest_tile] promises for an empty area, while the constructor of
    the iterator takes both areas as empty. *)
Theorem get_closest_tile_empty_area_run :
  let a := TileArea.Build 0 0 0 in
  let b := TileArea.Build 194 0 3 in
  TileArea.wf a /\ TileArea.wf b /\
  @TileArea.get_closest_tile map64 a 5 = 5 /\
  @TileArea.get_closest_tile map64 b 647 = 321 /\
  5 <> INVALID_TILE /\ 321 <> INVALID_TILE /\
  @TileX map64 321 = 1 /\ @TileY map64 321 = 5 /\
  @TileX map64 (TileArea.tile b) = 2 /\
  current (@OrthogonalTileIterator.make map64 a) = INVALID_TILE /\
  current (@OrthogonalTileIterator.make map64 b) = INVALID_TILE.
Proof.
  cbv zeta. split; [in_range|]. split; [in_range|].
  repeat split; first [reflexivity | discriminate].
Qed.

(** The upper bounds that [get_closest_tile] computes do not wrap around. *)
Lemma closest_bounds_exact `{Map} (ta : TileArea.t) :
  map_ok -> TileArea.wf ta ->
  uint (TileX (TileArea.tile ta) + TileArea.w ta - 1)
    = TileX (TileArea.tile ta) + TileArea.w ta - 1 /\
  uint (TileY (TileArea.tile ta) + TileArea.h ta - 1)
    = TileY (TileArea.tile ta) + TileArea.h ta - 1
  \/ TileArea.w ta = 0 \/ TileArea.h ta = 0.
Proof.
  intros (Hx & Hy & Hxy) (Ht & Hw & Hh).
  destruct (decide (TileArea.w ta = 0)) as [|Hw0]; [auto|].
  destruct (decide (TileArea.h ta = 0)) as [|Hh0]; [auto|].
  left.
  assert (0 < MapSizeX) as Hx0 by lia.
  pose proof (TileX_range (TileArea.tile ta) Hx0) as Hxr.
  pose proof (TileY_range (TileArea.tile ta) Hx Ht) as Hyr.
  assert (MapSizeX < 2 ^ 31) as Hx31 by nia.
  unfold is_uint16 in Hw, Hh.
  split; apply uint_id; unfold is_uint; lia.
Qed.

(** C4: for an area with a valid origin (x0,y0), a width W > 0 and a height
    H > 0, and every reference cell t, of coordinates (xt,yt),
    [get_closest_tile] returns the cell composed from xt clamped into
    [x0, x0+W-1] and yt clamped into [y0, y0+H-1]; when t lies inside the
    area it returns t. *)
Theorem get_closest_tile_clamps `{Map} (ta : TileArea.t) (t : TileIndex) :
  map_ok -> TileArea.wf ta -> is_uint t -> t <> INVALID_TILE ->
  TileArea.tile ta <> INVALID_TILE -> 0 < TileArea.w ta -> 0 < TileArea.h ta ->
  let x0 := TileX (TileArea.tile ta) in
  let y0 := TileY (TileArea.tile ta) in
  let W := TileArea.w ta in
  let H := TileArea.h ta in
  TileArea.get_closest_tile ta t
    = TileXY (ClampU (TileX t) x0 (x0 + W - 1)) (ClampU (TileY t) y0 (y0 + H - 1)) /\
  ClampU (TileX t) x0 (x0 + W - 1) = Z.max x0 (Z.min (TileX t) (x0 + W - 1)) /\
  ClampU (TileY t) y0 (y0 + H - 1) = Z.max y0 (Z.min (TileY t) (y0 + H - 1)) /\
  (x0 <= TileX t < x0 + W -> y0 <= TileY t < y0 + H ->
   TileArea.get_closest_tile ta t = t).
Proof.
  intros Hmap Hwf Ht _ Hvalid HW HH x0 y0 W H0. subst x0 y0 W H0.
  match goal with |- ?lhs = ?rhs /\ _ => assert (lhs = rhs) as Hrun end.
  { unfold TileArea.get_closest_tile.
    destruct (decide (TileArea.tile ta = INVALID_TILE)) as [Heq|_]; [contradiction|].
    destruct (closest_bounds_exact ta Hmap Hwf) as [[Hbx Hby]|[Hz|Hz]]; [|lia|lia].
    cbv zeta. rewrite Hbx, Hby. reflexivity. }
  split; [exact Hrun|].
  split; [apply ClampU_max_min; lia|].
  split; [apply ClampU_max_min; lia|].
  intros Hxin Hyin. rewrite Hrun.
  rewrite !ClampU_inside by lia.
  destruct Hmap as (Hx & _).
  apply TileXY_TileX_TileY; [lia|exact Ht].
Qed.

Lemma get_closest_tile_clamps_witness :
  let ta := TileArea.Build 194 4 2 in
  @TileArea.get_closest_tile map64 ta 647 = 261 /\
  @TileArea.get_closest_tile map64 ta 259 = 259.
Proof.
  intros ta.
  assert (TileArea.wf ta) as Hwf
    by in_range.
  assert (TileArea.tile ta <> INVALID_TILE) as Hvalid by (cbn; discriminate).
  split.
  - pose proof (@get_closest_tile_clamps map64 ta 647 map64_ok Hwf
                  ltac:(in_range) ltac:(discriminate) Hvalid
                  ltac:(cbn; lia) ltac:(cbn; lia)) as (Hrun & _).
    rewrite Hrun. reflexivity.
  - pose proof (@get_closest_tile_clamps map64 ta 259 map64_ok Hwf
                  ltac:(in_range) ltac:(discriminate) Hvalid
                  ltac:(cbn; lia) ltac:(cbn; lia)) as (_ & _ & _ & Hin).
    apply Hin; vm_compute; split; congruence.
Defined.

(** ** The iteration contract *)

Lemma operator_inc_exhausted {I} `{TileIterator I} (this : I) :
  current this = INVALID_TILE -> operator_inc this = Trap at_operator_inc.
Proof.
  intros Hdone. unfold operator_inc.
  destruct (decide (current this = INVALID_TILE)); [reflexivity|contradiction].
Qed.

(** Past the guard of [operator++], [Next] of the orthogonal iterator finds
    its own assertion true and returns. *)
Lemma Orthogonal_Next_returns (this : OrthogonalTileIterator.t) :
  OrthogonalTileIterator.tile this <> INVALID_TILE ->
  exists this', OrthogonalTileIterator.Next this = Ok this'.
Proof.
  intros Hvalid. unfold OrthogonalTileIterator.Next.
  destruct (decide (OrthogonalTileIterator.tile this = INVALID_TILE));
    [contradiction|].
  cbv zeta.
  destruct (0 <? uint (OrthogonalTileIterator.x this - 1)); [eauto|].
  destruct (0 <? uint (OrthogonalTileIterator.y this - 1)); eauto.
Qed.

Lemma Orthogonal_operator_inc_not_at_Next (this : OrthogonalTileIterator.t) :
  operator_inc this <> Trap at_Next.
Proof.
  unfold operator_inc.
  destruct (decide (current this = INVALID_TILE)) as [|Hvalid]; [discriminate|].
  destruct (Orthogonal_Next_returns this Hvalid) as [this' Hnext].
  cbn. rewrite Hnext. discriminate.
Qed.

Lemma Orthogonal_operator_inc_n_not_at_Next (n : nat) (this : OrthogonalTileIterator.t) :
  operator_inc_n n this <> Trap at_Next.
Proof.
  revert this. induction n as [|n IH]; intros this; cbn [operator_inc_n].
  - discriminate.
  - pose proof (Orthogonal_operator_inc_not_at_Next this) as Hone.
    destruct (operator_inc this) as [this'|s]; cbn.
    + apply IH.
    + intros Heq. apply Hone. exact Heq.
Qed.

(** C6: [operator++] requires the current cell not to be the invalid cell and
    stops at its assertion when the iterator is exhausted; after any number
    of advances of an iterator constructed from a TileArea, the assertion of
    [OrthogonalTileIterator::Next] has never failed, and on an iterator that
    is not exhausted [operator++] is [Next], which returns. *)
Theorem operator_inc_guards_Next `{Map} (ta : TileArea.t) (n : nat) :
  operator_inc_n n (OrthogonalTileIterator.make ta) <> Trap at_Next /\
  forall this : OrthogonalTileIterator.t,
    operator_inc_n n (OrthogonalTileIterator.make ta) = Ok this ->
    (current this = INVALID_TILE -> operator_inc this = Trap at_operator_inc) /\
    (current this <> INVALID_TILE ->
     operator_inc this = OrthogonalTileIterator.Next this /\
     exists this', OrthogonalTileIterator.Next this = Ok this').
Proof.
  split; [apply Orthogonal_operator_inc_n_not_at_Next|].
  intros this _. split.
  - apply operator_inc_exhausted.
  - intros Hvalid. split.
    + unfold operator_inc.
      destruct (decide (current this = INVALID_TILE)); [contradiction|reflexivity].
    + apply Orthogonal_Next_returns. exact Hvalid.
Qed.

Lemma operator_inc_guards_Next_witness :
  let ta := TileArea.Build 194 4 2 in
  (exists this,
     operator_inc_n 8 (@OrthogonalTileIterator.make map64 ta) = Ok this /\
     operator_inc this = Trap at_operator_inc) /\
  (exists this this',
     operator_inc_n 3 (@OrthogonalTileIterator.make map64 ta) = Ok this /\
     operator_inc this = Ok this').
Proof.
  intros ta. split.
  - eexists. split; [reflexivity|].
    apply (@operator_inc_guards_Next map64 ta 8); reflexivity.
  - destruct (@operator_inc_guards_Next map64 ta 3) as [_ Hstate].
    eexists. 
    destruct (Hstate _ eq_refl) as [_ Hlive].
    destruct Hlive as [Hinc [this' Hnext]]; [vm_compute; discriminate|].
    exists this'. split; [reflexivity|].
    rewrite Hinc. exact Hnext.
Defined.

(** ** OrthogonalTileIterator *)

(** C5: an iterator constructed from an area of width 0 or height 0 has the
    invalid cell as its current cell at once, and the loop over the area
    visits no cell. *)
Theorem make_empty_is_exhausted `{Map} (ta : TileArea.t) (fuel : nat) :
  TileArea.w ta = 0 \/ TileArea.h ta = 0 ->
  current (OrthogonalTileIterator.make ta) = INVALID_TILE /\
  TILE_AREA_LOOP fuel ta = Some ([], OrthogonalTileIterator.make ta).
Proof.
  intros Hempty.
  assert (current (OrthogonalTileIterator.make ta) = INVALID_TILE) as Hcur.
  { cbn. destruct Hempty as [-> | ->]; cbn; [reflexivity|].
    rewrite orb_true_r. reflexivity. }
  split; [exact Hcur|].
  unfold TILE_AREA_LOOP. destruct fuel; cbn [loop_from];
    (destruct (decide (current (OrthogonalTileIterator.make ta) = INVALID_TILE));
      [reflexivity|contradiction]).
Qed.

Lemma make_empty_is_exhausted_witness :
  current (@OrthogonalTileIterator.make map64 (TileArea.Build 194 0 3))
    = INVALID_TILE /\
  @TILE_AREA_LOOP map64 0 (TileArea.Build 194 0 3)
    = Some ([], @OrthogonalTileIterator.make map64 (TileArea.Build 194 0 3)).
Proof.
  apply (@make_empty_is_exhausted map64 (TileArea.Build 194 0 3) 0).
  left. reflexivity.
Defined.

(** What the loop computes does not depend on the fuel it is given. *)
Lemma loop_from_fuel_irrelevant {I} `{TileIterator I} (fuel fuel' : nat) (var : I)
    (r r' : list TileIndex * I) :
  loop_from fuel var = Some r -> loop_from fuel' var = Some r' -> r = r'.
Proof.
  revert fuel' var r r'.
  induction fuel as [|fuel IH]; intros fuel' var r r';
    destruct fuel' as [|fuel']; cbn [loop_from];
    destruct (decide (current var = INVALID_TILE)); try congruence.
  destruct (operator_inc var) as [var'|]; [|discriminate].
  destruct (loop_from fuel var') as [[cells last]|] eqn:Hrun; [|discriminate].
  destruct (loop_from fuel' var') as [[cells' last']|] eqn:Hrun'; [|discriminate].
  intros [= <-] [= <-].
  pose proof (IH fuel' var' _ _ Hrun Hrun') as [= -> ->]. reflexivity.
Qed.

(** Rows and positions: listing a grid of [n] rows of [W] columns position
    by position is listing it row by row. *)
Lemma positions_row {A} (f : Z -> Z -> A) (x0 y0 W j : Z) :
  0 < W -> 0 <= j ->
  (fun k => f (x0 + k mod W) (y0 + k / W)) <$> seqZ (W * j) W
  = (fun x => f x (y0 + j)) <$> seqZ x0 W.
Proof.
  intros HW Hj.
  replace (seqZ (W * j) W) with (Z.add (W * j) <$> seqZ 0 W)
    by (rewrite fmap_add_seqZ; f_equal; lia).
  replace (seqZ x0 W) with (Z.add x0 <$> seqZ 0 W)
    by (rewrite fmap_add_seqZ; f_equal; lia).
  rewrite <- !list_fmap_compose.
  apply list_fmap_ext. intros i k Hlook. cbn.
  apply lookup_seqZ in Hlook as [-> Hi].
  rewrite Z.add_0_l.
  assert ((W * j + Z.of_nat i) mod W = Z.of_nat i) as ->
    by (symmetry; apply (Z.mod_unique_pos _ _ j); lia).
  assert ((W * j + Z.of_nat i) / W = j) as ->
    by (symmetry; apply (Z.div_unique_pos _ _ _ (Z.of_nat i)); lia).
  reflexivity.
Qed.

Lemma positions_rows {A} (f : Z -> Z -> A) (x0 y0 W : Z) (n : nat) :
  0 < W ->
  (fun k => f (x0 + k mod W) (y0 + k / W)) <$> seqZ 0 (W * Z.of_nat n)
  = concat ((fun y => (fun x => f x y) <$> seqZ x0 W) <$> seqZ y0 (Z.of_nat n)).
Proof.
  intros HW. induction n as [|n IH].
  - rewrite Z.mul_0_r, !seqZ_nil by lia. reflexivity.
  - rewrite seqZ_S, fmap_app, concat_app. cbn [fmap list_fmap concat].
    rewrite app_nil_r, <- IH.
    replace (W * Z.of_nat (S n)) with (W * Z.of_nat n + W) by lia.
    rewrite seqZ_app, fmap_app by lia.
    f_equal. rewrite Z.add_0_l. apply positions_row; lia.
Qed.

(** The two cases of the loop. *)
Lemma loop_from_done {I} `{TileIterator I} (fuel : nat) (var : I) :
  current var = INVALID_TILE -> loop_from fuel var = Some ([], var).
Proof.
  intros Hdone. destruct fuel; cbn [loop_from];
    (destruct (decide (current var = INVALID_TILE)); [reflexivity|contradiction]).
Qed.

Lemma loop_from_step {I} `{TileIterator I} (fuel : nat) (var var' : I) :
  current var <> INVALID_TILE -> Next var = Ok var' ->
  loop_from (S fuel) var
  = match loop_from fuel var' with
    | Some (cells, last) => Some (current var :: cells, last)
    | None => None
    end.
Proof.
  intros Hlive Hnext. cbn [loop_from]. unfold operator_inc.
  destruct (decide (current var = INVALID_TILE)); [contradiction|].
  rewrite Hnext. reflexivity.
Qed.

(** [Next] on an iterator that is not exhausted, field by field. *)
Lemma Orthogonal_Next_Build (tile : TileIndex) (w rowdiff x y : Z) :
  tile <> INVALID_TILE ->
  OrthogonalTileIterator.Next (OrthogonalTileIterator.Build tile w rowdiff x y)
  = Ok (if 0 <? uint (x - 1)
        then OrthogonalTileIterator.Build (uint (tile + 1)) w rowdiff
               (uint (x - 1)) y
        else if 0 <? uint (y - 1)
        then OrthogonalTileIterator.Build (uint (tile + rowdiff)) w rowdiff
               w (uint (y - 1))
        else OrthogonalTileIterator.Build INVALID_TILE w rowdiff
               (uint (x - 1)) (uint (y - 1))).
Proof.
  intros Hvalid. unfold OrthogonalTileIterator.Next; cbn.
  destruct (decide (tile = INVALID_TILE)); [contradiction|].
  destruct (0 <? uint (x - 1)); [reflexivity|].
  destruct (0 <? uint (y - 1)); reflexivity.
Qed.

(** The traversal of a rectangle that lies on the map: the area has its
    origin at column [x0] of row [y0], [W] columns and [H] rows. *)
Section Traversal.
Context {map : Map}.
Variables x0 y0 W H : Z.
Hypothesis Hmap : map_ok.
Hypothesis HW : 0 < W.
Hypothesis HH : 0 < H.
Hypothesis Hx0 : 0 <= x0.
Hypothesis Hy0 : 0 <= y0.
Hypothesis Hright : x0 + W <= MapSizeX.
Hypothesis Hbottom : y0 + H <= MapSizeY.

Local Abbreviation cell := (cell_at x0 y0 W).
Local Abbreviation state := (state_at x0 y0 W H).

Lemma position_in_area (k : Z) :
  0 <= k < W * H -> 0 <= k mod W < W /\ 0 <= k / W < H.
Proof using HW.
  intros Hk. split.
  - apply Z.mod_pos_bound. exact HW.
  - split.
    + apply Z.div_pos; lia.
    + apply Z.div_lt_upper_bound; lia.
Qed.

Lemma cell_at_exact (k : Z) :
  0 <= k < W * H ->
  cell k = (y0 + k / W) * MapSizeX + (x0 + k mod W) /\
  cell k <> INVALID_TILE.
Proof using Hmap HW Hx0 Hy0 Hright Hbottom.
  intros Hk. destruct (position_in_area k Hk) as [Hc Hr].
  destruct (TileXY_on_map (x0 + k mod W) (y0 + k / W) Hmap) as [Heq Hlt];
    [lia|lia|].
  unfold cell_at. rewrite Heq. split; [reflexivity|].
  rewrite INVALID_TILE_eq. lia.
Qed.

Lemma rowdiff_exact : uint (TileDiffXY 1 1 - W) = MapSizeX + 1 - W.
Proof using Hmap HW Hx0 Hright.
  destruct Hmap as (Hx & Hy & Hxy).
  unfold TileDiffXY. rewrite Z.mul_1_l. apply uint_id. unfold is_uint. nia.
Qed.

(** Within a row, and from the last cell of a row to the next row. *)
Lemma successor_position (k : Z) :
  0 <= k ->
  (k mod W + 1 < W /\ (k + 1) mod W = k mod W + 1 /\ (k + 1) / W = k / W) \/
  (k mod W + 1 = W /\ (k + 1) mod W = 0 /\ (k + 1) / W = k / W + 1).
Proof using HW.
  intros Hk.
  pose proof (Z.div_mod k W ltac:(lia)) as Hdm.
  pose proof (Z.mod_pos_bound k W HW) as Hr.
  destruct (decide (k mod W + 1 < W)) as [Hin|Hend]; [left|right].
  - split; [exact Hin|].
    assert (k + 1 = W * (k / W) + (k mod W + 1)) as Hk1 by lia.
    split; [symmetry; apply (Z.mod_unique_pos _ _ (k / W)); lia
           |symmetry; apply (Z.div_unique_pos _ _ _ (k mod W + 1)); lia].
  - split; [lia|].
    assert (k + 1 = W * (k / W + 1) + 0) as Hk1 by lia.
    split; [symmetry; apply (Z.mod_unique_pos _ _ (k / W + 1)); lia
           |symmetry; apply (Z.div_unique_pos _ _ _ 0); lia].
Qed.

Lemma Next_state_at (k : Z) :
  0 <= k -> k + 1 < W * H ->
  OrthogonalTileIterator.Next (state k) = Ok (state (k + 1)).
Proof using Hmap HW HH Hx0 Hy0 Hright Hbottom.
  intros Hk Hk1.
  destruct (cell_at_exact k ltac:(lia)) as [Hcell Hvalid].
  destruct (cell_at_exact (k + 1) ltac:(lia)) as [Hcell1 _].
  destruct (position_in_area k ltac:(lia)) as [Hc Hr].
  destruct (position_in_area (k + 1) ltac:(lia)) as [Hc1 Hr1].
  assert (W < 2 ^ 32 /\ H < 2 ^ 32) as [HW32 HH32]
    by (destruct Hmap as (? & ? & ?); nia).
  unfold state_at at 1. rewrite Orthogonal_Next_Build by exact Hvalid.
  rewrite (uint_id (W - k mod W - 1)) by (unfold is_uint; lia).
  destruct (TileXY_on_map (x0 + (k + 1) mod W) (y0 + (k + 1) / W) Hmap)
    as [_ Hfit]; [lia|lia|].
  destruct (successor_position k Hk) as [(Hin & Hmod & Hdiv)|(Hend & Hmod & Hdiv)].
  - destruct (Z.ltb_spec 0 (W - k mod W - 1)); [|lia].
    assert (uint (cell k + 1) = cell (k + 1)) as Htile.
    { rewrite Hcell1, Hcell. rewrite Hmod, Hdiv in Hfit |- *.
      replace ((y0 + k / W) * MapSizeX + (x0 + k mod W) + 1)
        with ((y0 + k / W) * MapSizeX + (x0 + (k mod W + 1))) by lia.
      apply uint_id. unfold is_uint. lia. }
    assert (W - k mod W - 1 = W - (k + 1) mod W) as Hcol by (rewrite Hmod; lia).
    assert (H - k / W = H - (k + 1) / W) as Hrow by (rewrite Hdiv; lia).
    rewrite Htile, Hcol, Hrow. reflexivity.
  - destruct (Z.ltb_spec 0 (W - k mod W - 1)); [lia|].
    rewrite (uint_id (H - k / W - 1)) by (unfold is_uint; lia).
    destruct (Z.ltb_spec 0 (H - k / W - 1)); [|lia].
    assert (uint (cell k + uint (TileDiffXY 1 1 - W)) = cell (k + 1)) as Htile.
    { rewrite Hcell1, Hcell, rowdiff_exact. rewrite Hmod, Hdiv in Hfit |- *.
      replace ((y0 + k / W) * MapSizeX + (x0 + k mod W) + (MapSizeX + 1 - W))
        with ((y0 + (k / W + 1)) * MapSizeX + (x0 + 0)) by lia.
      apply uint_id. unfold is_uint. lia. }
    assert (H - k / W - 1 = H - (k + 1) / W) as Hrow by (rewrite Hdiv; lia).
    rewrite Htile, Hrow. unfold state_at. rewrite Hmod, Z.sub_0_r.
    reflexivity.
Qed.
Lemma Next_state_last :
  exists last,
    OrthogonalTileIterator.Next (state (W * H - 1)) = Ok last /\
    current last = INVALID_TILE.
Proof using Hmap HW HH Hx0 Hy0 Hright Hbottom.
  destruct (cell_at_exact (W * H - 1) ltac:(lia)) as [_ Hvalid].
  destruct (position_in_area (W * H - 1) ltac:(lia)) as [Hc Hr].
  destruct (successor_position (W * H - 1) ltac:(lia))
    as [(Hin & Hmod & Hdiv)|(Hend & Hmod & Hdiv)];
    replace (W * H - 1 + 1) with (H * W) in Hmod, Hdiv by lia;
    rewrite Z.mod_mul in Hmod by lia; rewrite Z.div_mul in Hdiv by lia;
    [lia|].
  unfold state_at. rewrite Orthogonal_Next_Build by exact Hvalid.
  replace (W - (W * H - 1) mod W - 1) with 0 by lia.
  replace (H - (W * H - 1) / W - 1) with 0 by lia.
  change (0 <? uint 0) with false. cbv iota.
  eexists. split; reflexivity.
Qed.

(** The loop from the state after [k] advances visits the cells of the
    remaining positions in order and stops on the invalid cell. *)
Lemma loop_from_state_at (n : nat) :
  forall (k : Z) (fuel : nat),
    0 <= k -> k + Z.of_nat (S n) = W * H -> (S n <= fuel)%nat ->
    exists last,
      loop_from fuel (state k) = Some (cell <$> seqZ k (Z.of_nat (S n)), last) /\
      current last = INVALID_TILE.
Proof using Hmap HW HH Hx0 Hy0 Hright Hbottom.
  induction n as [|n IH]; intros k fuel Hk Hsum Hfuel;
    (destruct fuel as [|fuel]; [lia|]);
    destruct (cell_at_exact k ltac:(lia)) as [_ Hvalid].
  - replace k with (W * H - 1) in * by lia.
    destruct Next_state_last as (last & Hnext & Hlast).
    exists last. split; [|exact Hlast].
    assert (current (state (W * H - 1)) <> INVALID_TILE) as Hlive
      by exact Hvalid.
    assert (Next (state (W * H - 1)) = Ok last) as Hstep by exact Hnext.
    rewrite (loop_from_step fuel _ _ Hlive Hstep).
    rewrite (loop_from_done fuel last Hlast).
    rewrite seqZ_cons, seqZ_nil by lia. reflexivity.
  - destruct (IH (k + 1) fuel ltac:(lia) ltac:(lia) ltac:(lia))
      as (last & Hloop & Hlast).
    exists last. split; [|exact Hlast].
    assert (current (state k) <> INVALID_TILE) as Hlive by exact Hvalid.
    assert (Next (state k) = Ok (state (k + 1))) as Hstep
      by (apply Next_state_at; lia).
    rewrite (loop_from_step fuel _ _ Hlive Hstep).
    rewrite Hloop.
    rewrite (seqZ_cons k) by lia.
    replace (Z.pred (Z.of_nat (S (S n)))) with (Z.of_nat (S n)) by lia.
    reflexivity.
Qed.

(** Distinct positions of the walk are distinct cells. *)
Lemma cell_at_inj (k k' : Z) :
  0 <= k < W * H -> 0 <= k' < W * H -> cell k = cell k' -> k = k'.
Proof using Hmap HW Hx0 Hy0 Hright Hbottom.
  intros Hk Hk' Heq.
  destruct (cell_at_exact k Hk) as [Hc _].
  destruct (cell_at_exact k' Hk') as [Hc' _].
  rewrite Hc, Hc' in Heq.
  destruct (position_in_area k Hk) as [Hcol Hrow].
  destruct (position_in_area k' Hk') as [Hcol' Hrow'].
  pose proof (Z.div_mod k W ltac:(lia)) as Hdm.
  pose proof (Z.div_mod k' W ltac:(lia)) as Hdm'.
  assert (k / W = k' / W) as Hq by nia.
  rewrite Hq in *. lia.
Qed.

Lemma cells_NoDup : NoDup (cell <$> seqZ 0 (W * H)).
Proof using Hmap HW Hx0 Hy0 Hright Hbottom.
  apply NoDup_fmap_2_strong; [|apply NoDup_seqZ].
  intros k k' Hk Hk'. rewrite elem_of_seqZ in Hk, Hk'.
  apply cell_at_inj; lia.
Qed.

Lemma cells_elem_of (c : TileIndex) :
  c ∈ cell <$> seqZ 0 (W * H) <->
  exists x y, x0 <= x < x0 + W /\ y0 <= y < y0 + H /\ c = TileXY x y.
Proof using HW HH.
  rewrite list_elem_of_fmap. split.
  - intros (k & -> & Hk). rewrite elem_of_seqZ in Hk.
    destruct (position_in_area k ltac:(lia)) as [Hcol Hrow].
    exists (x0 + k mod W), (y0 + k / W). repeat split; lia.
  - intros (x & y & Hx & Hy & ->).
    exists (W * (y - y0) + (x - x0)). split.
    + unfold cell_at. f_equal.
      * rewrite <- (Z.mod_unique_pos _ W (y - y0) (x - x0)); lia.
      * rewrite <- (Z.div_unique_pos _ W (y - y0) (x - x0)); lia.
    + rewrite elem_of_seqZ. nia.
Qed.
End Traversal.

(** Decomposing a cell composed on the map gives its coordinates back. *)
Lemma TileX_TileY_TileXY {map : Map} (x y : Z) :
  map_ok -> 0 <= x < MapSizeX -> 0 <= y < MapSizeY ->
  TileX (TileXY x y) = x /\ TileY (TileXY x y) = y.
Proof.
  intros Hmap Hx Hy.
  destruct (TileXY_on_map x y Hmap Hx Hy) as [-> _].
  unfold TileX, TileY. split; symmetry.
  - apply (Z.mod_unique_pos _ _ y); lia.
  - apply (Z.div_unique_pos _ _ _ x); lia.
Qed.

(** The iterator constructed from an area on the map is the walk at its
    start. *)
Lemma make_state_at_0 {map : Map} (ta : TileArea.t) :
  0 < MapSizeX -> is_uint (TileArea.tile ta) ->
  0 < TileArea.w ta -> 0 < TileArea.h ta ->
  OrthogonalTileIterator.make ta
  = state_at (TileX (TileArea.tile ta)) (TileY (TileArea.tile ta))
             (TileArea.w ta) (TileArea.h ta) 0.
Proof.
  intros Hx Ht HW HH. destruct ta as [t W H]; cbn in *.
  unfold OrthogonalTileIterator.make, state_at, cell_at; cbn.
  destruct (Z.eqb_spec W 0); [lia|]. destruct (Z.eqb_spec H 0); [lia|].
  rewrite Zmod_0_l, Zdiv_0_l, !Z.add_0_r, !Z.sub_0_r.
  rewrite TileXY_TileX_TileY by assumption. reflexivity.
Qed.

(** C1, as the code has it: for a TileArea of width W > 0 and height H > 0
    that lies on the map, the loop that advances an OrthogonalTileIterator
    until its current cell is the invalid cell finishes, visits the cells of
    the rectangle row after row from the top and from left to right within a
    row, W*H cells in all, each cell of the rectangle once and no other
    cell, and leaves the iterator on the invalid cell. *)
Theorem TILE_AREA_LOOP_row_major {map : Map} (ta : TileArea.t) (fuel : nat) :
  let x0 := TileX (TileArea.tile ta) in
  let y0 := TileY (TileArea.tile ta) in
  let W := TileArea.w ta in
  let H := TileArea.h ta in
  let cells :=
    concat ((fun y => (fun x => TileXY x y) <$> seqZ x0 W) <$> seqZ y0 H) in
  map_ok -> is_uint (TileArea.tile ta) ->
  0 < W -> 0 < H -> x0 + W <= MapSizeX -> y0 + H <= MapSizeY ->
  (Z.to_nat (W * H) <= fuel)%nat ->
  (exists last,
     TILE_AREA_LOOP fuel ta = Some (cells, last) /\
     current last = INVALID_TILE) /\
  length cells = Z.to_nat (W * H) /\
  NoDup cells /\
  (forall c, c ∈ cells <->
     exists x y, x0 <= x < x0 + W /\ y0 <= y < y0 + H /\ c = TileXY x y) /\
  (forall c, c ∈ cells ->
     c <> INVALID_TILE /\ x0 <= TileX c < x0 + W /\ y0 <= TileY c < y0 + H).
Proof.
  intros x0 y0 W H cells Hmap Ht HW HH Hright Hbottom Hfuel.
  assert (0 < MapSizeX) as Hx by (destruct Hmap; lia).
  assert (0 <= x0) as Hx0 by (apply TileX_range; exact Hx).
  assert (0 <= y0) as Hy0 by (apply Z.div_pos; [apply Ht|exact Hx]).
  assert (cells = cell_at x0 y0 W <$> seqZ 0 (W * H)) as Hcells.
  { subst cells. rewrite <- (Z2Nat.id H) at 1 2 by lia.
    rewrite <- (positions_rows TileXY x0 y0 W (Z.to_nat H) HW).
    rewrite Z2Nat.id by lia. reflexivity. }
  assert (forall c, c ∈ cells <->
     exists x y, x0 <= x < x0 + W /\ y0 <= y < y0 + H /\ c = TileXY x y) as Hin
    by (intros c; rewrite Hcells; apply cells_elem_of; assumption).
  split; [|split; [|split; [|split]]].
  - unfold TILE_AREA_LOOP. rewrite make_state_at_0 by assumption.
    fold x0 y0 W H. rewrite Hcells.
    assert (0 < W * H) as Hpos by nia.
    destruct (loop_from_state_at x0 y0 W H Hmap HW HH Hx0 Hy0 Hright Hbottom
                (Nat.pred (Z.to_nat (W * H))) 0 fuel)
      as (last & Hloop & Hlast); [lia|lia|lia|].
    exists last. split; [|exact Hlast].
    rewrite Hloop.
    replace (Z.of_nat (S (Nat.pred (Z.to_nat (W * H))))) with (W * H) by lia.
    reflexivity.
  - rewrite Hcells, length_fmap, length_seqZ. reflexivity.
  - rewrite Hcells. apply cells_NoDup; assumption.
  - exact Hin.
  - intros c Hc. apply Hin in Hc as (x & y & Hxr & Hyr & ->).
    destruct (TileXY_on_map x y Hmap) as [Heq Hfit]; [lia|lia|].
    destruct (TileX_TileY_TileXY x y Hmap) as [-> ->]; [lia|lia|].
    split; [|split; assumption].
    rewrite Heq, INVALID_TILE_eq. lia.
Qed.

(** The area of the cells (2,3) to (5,4) of the 64 by 64 map: the loop
    visits (2,3), (3,3), (4,3), (5,3), (2,4), (3,4), (4,4), (5,4). *)
Lemma TILE_AREA_LOOP_row_major_witness :
  exists last,
    @TILE_AREA_LOOP map64 8 (TileArea.Build 194 4 2)
      = Some ([194; 195; 196; 197; 258; 259; 260; 261], last) /\
    current last = INVALID_TILE.
Proof.
  apply (@TILE_AREA_LOOP_row_major map64 (TileArea.Build 194 4 2) 8).
  - exact map64_ok.
  - in_range.
  - cbn; lia.
  - cbn; lia.
  - vm_compute; discriminate.
  - vm_compute; discriminate.
  - vm_compute; lia.
Defined.

Lemma TILE_AREA_LOOP_eq {map : Map} (fuel : nat) (ta : TileArea.t) :
  TILE_AREA_LOOP fuel ta = loop_from fuel (OrthogonalTileIterator.make ta).
Proof. reflexivity. Qed.

(** The run behind the counterexample of C1: the cells at positions 64 and
    65 of the walk are both cell 64. *)
Lemma loop_from_wide_run :
  exists r,
    loop_from 130 (@OrthogonalTileIterator.make map64 (TileArea.Build 0 65 2))
      = Some r /\
    r.1 !! 64%nat = Some 64 /\ r.1 !! 65%nat = Some 64.
Proof.
  eexists. split; [vm_compute; reflexivity|].
  split; vm_compute; reflexivity.
Qed.

(** C1, as stated, fails: on the 64 by 64 map the area of origin cell 0 with
    width 65 and height 2 is wider than the map, and the loop over it visits
    cell 64 twice, as the last cell of the first row and as the first cell
    of the second. *)
Lemma TILE_AREA_LOOP_counterexample :
  ~ (forall (M : Map) (ta : TileArea.t),
       @map_ok M -> TileArea.wf ta ->
       0 < TileArea.w ta -> 0 < TileArea.h ta ->
       exists fuel cells last,
         @TILE_AREA_LOOP M fuel ta = Some (cells, last) /\
         length cells = Z.to_nat (TileArea.w ta * TileArea.h ta) /\
         NoDup cells).
Proof.
  intros Hall.
  destruct (Hall map64 (TileArea.Build 0 65 2) map64_ok)
    as (fuel & cells & last & Hloop & _ & Hnodup).
  - in_range.
  - cbn. lia.
  - cbn. lia.
  - rewrite TILE_AREA_LOOP_eq in Hloop.
    destruct loop_from_wide_run as (r & Hrun & H64 & H65).
    pose proof (loop_from_fuel_irrelevant _ _ _ _ _ Hloop Hrun) as <-.
    cbn [fst] in H64, H65.
    pose proof (proj1 (NoDup_alt _) Hnodup 64%nat 65%nat 64 H64 H65) as Hsame.
    lia.
Qed.

(** ** Clone *)

Section Cloning.
Variable DiagonalNext :
  DiagonalTileIterator.t -> result DiagonalTileIterator.t.

(** The copy has the class and every field of the original. *)
Lemma Clone_object_id (this : object) : Clone_object this = this.
Proof. destruct this as [[] | []]; reflexivity. Qed.

Lemma Clone_inv (σ σ' : heap) (p q : loc) :
  Clone σ p = Ok (q, σ') ->
  exists this,
    σ !! p = Some this /\ σ !! q = None /\ σ' = <[q := this]> σ.
Proof.
  unfold Clone, new. destruct (σ !! p) as [this|] eqn:Hp; [|discriminate].
  rewrite Clone_object_id. intros [= <- <-].
  exists this. split; [reflexivity|]. split; [|reflexivity].
  apply not_elem_of_dom. apply is_fresh.
Qed.

(** An advance at [p] writes at [p] only. *)
Lemma advance_frame (σ σ' : heap) (p q : loc) :
  advance DiagonalNext σ p = Ok σ' -> q <> p -> σ' !! q = σ !! q.
Proof.
  unfold advance. destruct (σ !! p) as [this|]; [|discriminate].
  destruct (operator_inc this) as [this'|]; [|discriminate].
  cbn. intros [= <-] Hne. apply lookup_insert_ne. congruence.
Qed.

Lemma advance_n_frame (n : nat) (p q : loc) :
  q <> p ->
  forall (σ σ' : heap) (cells : list TileIndex),
    advance_n DiagonalNext n σ p = Ok (cells, σ') -> σ' !! q = σ !! q.
Proof.
  intros Hne. induction n as [|n IH]; intros σ σ' cells; cbn [advance_n].
  - intros [= _ <-]. reflexivity.
  - destruct (advance DiagonalNext σ p) as [σ1|] eqn:Hstep; [|discriminate].
    cbn. destruct (read DiagonalNext σ1 p) as [c|]; [|discriminate].
    cbn. destruct (advance_n DiagonalNext n σ1 p) as [[cs σ2]|] eqn:Hrest;
      [|discriminate].
    cbn. intros [= _ <-].
    rewrite (IH _ _ _ Hrest). apply (advance_frame _ _ _ _ Hstep Hne).
Qed.

(** What [n] advances yield depends on the object advanced alone, not on
    its address nor on the rest of the heap. *)
Lemma advance_n_object (n : nat) :
  forall (σ1 σ2 : heap) (p q : loc),
    σ1 !! p = σ2 !! q ->
    fst <$> advance_n DiagonalNext n σ1 p
    = fst <$> advance_n DiagonalNext n σ2 q.
Proof.
  induction n as [|n IH]; intros σ1 σ2 p q Hsame; cbn [advance_n].
  - reflexivity.
  - unfold advance. rewrite Hsame.
    destruct (σ2 !! q) as [this|]; [|reflexivity].
    destruct (operator_inc this) as [this'|]; [|reflexivity].
    cbn. unfold read. rewrite !lookup_insert_eq. cbn.
    specialize (IH (<[p := this']> σ1) (<[q := this']> σ2) p q).
    rewrite !lookup_insert_eq in IH. specialize (IH eq_refl).
    destruct (advance_n DiagonalNext n (<[p := this']> σ1) p) as [[cs1 h1]|],
             (advance_n DiagonalNext n (<[q := this']> σ2) q) as [[cs2 h2]|];
      cbn in IH |- *; congruence.
Qed.

(** [Clone] on an allocated iterator returns: it allocates the copy. *)
Lemma Clone_returns (σ : heap) (p : loc) (this : object) :
  σ !! p = Some this ->
  Clone σ p = Ok (fresh (dom σ), <[fresh (dom σ) := this]> σ).
Proof.
  intros Hp. unfold Clone, new. rewrite Hp, Clone_object_id. reflexivity.
Qed.

(** What follows a [Clone] that returned. *)
Lemma Clone_frames (σ σ' : heap) (p q : loc) :
  Clone σ p = Ok (q, σ') ->
  q <> p /\
  σ !! q = None /\
  σ' !! q = σ !! p /\
  (forall r, r <> q -> σ' !! r = σ !! r) /\
  (forall n,
     fst <$> advance_n DiagonalNext n σ' q
     = fst <$> advance_n DiagonalNext n σ' p) /\
  (forall m cells σ'',
     advance_n DiagonalNext m σ' p = Ok (cells, σ'') ->
     σ'' !! q = σ' !! q /\
     forall n, fst <$> advance_n DiagonalNext n σ'' q
               = fst <$> advance_n DiagonalNext n σ' q) /\
  (forall m cells σ'',
     advance_n DiagonalNext m σ' q = Ok (cells, σ'') ->
     σ'' !! p = σ' !! p /\
     forall n, fst <$> advance_n DiagonalNext n σ'' p
               = fst <$> advance_n DiagonalNext n σ' p).
Proof.
  intros Hclone.
  destruct (Clone_inv _ _ _ _ Hclone) as (this & Hp & Hq & ->).
  assert (q <> p) as Hne by congruence.
  assert (p <> q) as Hne' by congruence.
  split; [exact Hne|]. split; [exact Hq|].
  split; [rewrite lookup_insert_eq; congruence|].
  split; [intros r Hr; apply lookup_insert_ne; congruence|].
  split.
  { intros n. apply advance_n_object.
    rewrite lookup_insert_eq, lookup_insert_ne by congruence. congruence. }
  split; intros m cells σ'' Hrun.
  - pose proof (advance_n_frame m p q Hne _ _ _ Hrun) as Hkept.
    split; [exact Hkept|]. intros n. apply advance_n_object. exact Hkept.
  - pose proof (advance_n_frame m q p Hne' _ _ _ Hrun) as Hkept.
    split; [exact Hkept|]. intros n. apply advance_n_object. exact Hkept.
Qed.

(** C8: for every iterator [this], of either class and in any state, at an
    address [p] of the heap, [Clone] returns: it makes a new iterator object
    at an address [q] of its own, not in use before, that holds the class
    and every field of [this], and it leaves every other object, the source
    among them, as it was.  From there on, [n] advances of the clone yield
    the cells that [n] advances of the source yield, and advances of either
    one, any number of them, leave the other one untouched, so that it still
    yields the same cells afterwards. *)
Theorem Clone_independent (σ : heap) (p : loc) (this : object) :
  σ !! p = Some this ->
  exists (q : loc) (σ' : heap),
    Clone σ p = Ok (q, σ') /\
    q <> p /\
    σ !! q = None /\
    σ' !! q = Some this /\
    σ' !! p = Some this /\
    (forall r, r <> q -> σ' !! r = σ !! r) /\
    (forall n,
       fst <$> advance_n DiagonalNext n σ' q
       = fst <$> advance_n DiagonalNext n σ' p) /\
    (forall m cells σ'',
       advance_n DiagonalNext m σ' p = Ok (cells, σ'') ->
       σ'' !! q = Some this /\
       forall n, fst <$> advance_n DiagonalNext n σ'' q
                 = fst <$> advance_n DiagonalNext n σ' q) /\
    (forall m cells σ'',
       advance_n DiagonalNext m σ' q = Ok (cells, σ'') ->
       σ'' !! p = Some this /\
       forall n, fst <$> advance_n DiagonalNext n σ'' p
                 = fst <$> advance_n DiagonalNext n σ' p).
Proof.
  intros Hp.
  pose proof (Clone_returns σ p this Hp) as Hclone.
  destruct (Clone_frames _ _ _ _ Hclone)
    as (Hne & Hq & Hcopy & Hrest & Hsame & Hsource & Hclone').
  assert (<[fresh (dom σ) := this]> σ !! p = Some this) as Hp'
    by (rewrite (Hrest p) by congruence; exact Hp).
  rewrite Hp in Hcopy.
  eexists _, _. split; [exact Hclone|].
  split; [exact Hne|]. split; [exact Hq|]. split; [exact Hcopy|].
  split; [exact Hp'|]. split; [exact Hrest|]. split; [exact Hsame|].
  split; intros m cells σ'' Hrun.
  - destruct (Hsource m cells σ'' Hrun) as [Hkept Hcells].
    split; [congruence|exact Hcells].
  - destruct (Hclone' m cells σ'' Hrun) as [Hkept Hcells].
    split; [congruence|exact Hcells].
Qed.
End Cloning.

(** A heap with an orthogonal iterator at address 1 and a diagonal iterator
    at address 2: each is cloned at address 3, the clone holds what the
    source holds, and three advances of the clone of the first yield what
    three advances of the source yield. *)
Lemma Clone_independent_witness :
  let o :=
    Orthogonal (@OrthogonalTileIterator.make map64 (TileArea.Build 194 4 2)) in
  let d :=
    Diagonal (DiagonalTileIterator.Build 194 2 3 false 1 1 (-1) 2 2 3) in
  let σ : heap := {[ 1%positive := o; 2%positive := d ]} in
  (exists (q : loc) (σ' : heap),
     Clone σ 2%positive = Ok (q, σ') /\ q <> 2%positive /\
     σ' !! q = Some d /\ σ' !! 2%positive = Some d) /\
  (exists (q : loc) (σ' : heap),
     Clone σ 1%positive = Ok (q, σ') /\ q <> 1%positive /\
     σ' !! q = Some o /\
     fst <$> advance_n Ok 3 σ' q = fst <$> advance_n Ok 3 σ' 1%positive).
Proof.
  intros o d σ. split.
  - destruct (Clone_independent Ok σ 2%positive d eq_refl)
      as (q & σ' & Hclone & Hne & _ & Hcopy & Hsource & _).
    exists q, σ'. repeat split; assumption.
  - destruct (Clone_independent Ok σ 1%positive o eq_refl)
      as (q & σ' & Hclone & Hne & _ & Hcopy & _ & _ & Hsame & _).
    exists q, σ'. repeat split; try assumption. exact (Hsame 3%nat).
Defined.

(** * Further properties *)

(** Closes a closed comparison of integers by running it. *)
Ltac by_run := vm_compute; repeat split; first [discriminate | reflexivity].

(** ** TileArea on the map *)

(** An area lies on the map when its origin is a cell of the map and the
    rectangle does not pass the last column nor the last row. *)
Lemma origin_on_map {map : Map} (ta : TileArea.t) :
  map_ok -> is_uint (TileArea.tile ta) ->
  0 < TileArea.w ta -> 0 < TileArea.h ta ->
  TileX (TileArea.tile ta) + TileArea.w ta <= MapSizeX ->
  TileY (TileArea.tile ta) + TileArea.h ta <= MapSizeY ->
  0 <= TileX (TileArea.tile ta) /\ 0 <= TileY (TileArea.tile ta) /\
  TileArea.tile ta
    = TileY (TileArea.tile ta) * MapSizeX + TileX (TileArea.tile ta) /\
  TileArea.tile ta <> INVALID_TILE.
Proof.
  intros Hmap Ht HW HH Hright Hbottom.
  assert (0 < MapSizeX) as Hx by (destruct Hmap; lia).
  pose proof (TileX_range (TileArea.tile ta) Hx) as Hxr.
  assert (0 <= TileY (TileArea.tile ta)) as Hyr
    by (apply Z.div_pos; [apply Ht|exact Hx]).
  assert (TileArea.tile ta
    = TileY (TileArea.tile ta) * MapSizeX + TileX (TileArea.tile ta)) as Heq.
  { unfold TileX, TileY. rewrite Z.mul_comm. apply Z.div_mod. lia. }
  repeat split; try lia; try exact Heq.
  destruct (TileXY_on_map (TileX (TileArea.tile ta)) (TileY (TileArea.tile ta))
              Hmap) as [_ Hfit]; [lia|lia|].
  rewrite INVALID_TILE_eq. lia.
Qed.

(** X1: for an area on the map with positive extents, [GetCenterTile] is the
    cell [W/2] columns and [H/2] rows from the origin; it is a cell of the
    area, with as many columns (rows) of the area before it as after it, or
    one more. *)
Theorem GetCenterTile_inside {map : Map} (ta : TileArea.t) :
  let x0 := TileX (TileArea.tile ta) in
  let y0 := TileY (TileArea.tile ta) in
  let W := TileArea.w ta in
  let H := TileArea.h ta in
  let c := TileArea.GetCenterTile ta in
  map_ok -> is_uint (TileArea.tile ta) ->
  0 < W -> 0 < H -> x0 + W <= MapSizeX -> y0 + H <= MapSizeY ->
  c = TileXY (x0 + W / 2) (y0 + H / 2) /\
  c <> INVALID_TILE /\
  x0 <= TileX c < x0 + W /\ y0 <= TileY c < y0 + H /\
  0 <= (TileX c - x0) - (x0 + W - 1 - TileX c) <= 1 /\
  0 <= (TileY c - y0) - (y0 + H - 1 - TileY c) <= 1.
Proof.
  intros x0 y0 W H c Hmap Ht HW HH Hright Hbottom.
  destruct (origin_on_map ta Hmap Ht HW HH Hright Hbottom)
    as (Hx0 & Hy0 & Htile & _).
  fold x0 y0 in Hx0, Hy0, Htile.
  pose proof (Z.div_mod W 2 ltac:(lia)) as HW2.
  pose proof (Z.mod_pos_bound W 2 ltac:(lia)) as HW2r.
  pose proof (Z.div_mod H 2 ltac:(lia)) as HH2.
  pose proof (Z.mod_pos_bound H 2 ltac:(lia)) as HH2r.
  destruct (TileXY_on_map (x0 + W / 2) (y0 + H / 2) Hmap) as [Hxy Hfit];
    [lia|lia|].
  assert (c = TileXY (x0 + W / 2) (y0 + H / 2)) as Hc.
  { subst c. unfold TileArea.GetCenterTile, TILE_ADDXY, TILE_ADD, TileDiffXY.
    fold W H. rewrite !Z.quot_div_nonneg by lia.
    unfold TileXY. f_equal. rewrite Htile. lia. }
  destruct (TileX_TileY_TileXY (x0 + W / 2) (y0 + H / 2) Hmap) as [HX HY];
    [lia|lia|].
  rewrite <- Hc in HX, HY.
  split; [exact Hc|]. split; [rewrite Hc, Hxy, INVALID_TILE_eq; lia|].
  rewrite HX, HY. lia.
Qed.

Lemma GetCenterTile_inside_witness :
  @TileArea.GetCenterTile map64 (TileArea.Build 194 4 3) = 260.
Proof.
  destruct (@GetCenterTile_inside map64 (TileArea.Build 194 4 3))
    as (Hc & _); [exact map64_ok | in_range | by_run .. |].
  rewrite Hc. reflexivity.
Defined.

(** For an area on the map, [get_closest_tile] composes the two clamped
    coordinates, which are coordinates of the area. *)
Lemma get_closest_tile_on_map {map : Map} (ta : TileArea.t) (t : TileIndex) :
  let x0 := TileX (TileArea.tile ta) in
  let y0 := TileY (TileArea.tile ta) in
  let W := TileArea.w ta in
  let H := TileArea.h ta in
  let cx := Z.max x0 (Z.min (TileX t) (x0 + W - 1)) in
  let cy := Z.max y0 (Z.min (TileY t) (y0 + H - 1)) in
  map_ok -> is_uint (TileArea.tile ta) ->
  0 < W -> 0 < H -> x0 + W <= MapSizeX -> y0 + H <= MapSizeY ->
  TileArea.get_closest_tile ta t = TileXY cx cy /\
  TileX (TileXY cx cy) = cx /\ TileY (TileXY cx cy) = cy /\
  is_uint (TileXY cx cy) /\ TileXY cx cy <> INVALID_TILE.
Proof.
  intros x0 y0 W H cx cy Hmap Ht HW HH Hright Hbottom.
  destruct (origin_on_map ta Hmap Ht HW HH Hright Hbottom)
    as (Hx0 & Hy0 & _ & Hvalid).
  fold x0 y0 in Hx0, Hy0.
  assert (MapSizeX * MapSizeY < 2 ^ 32) as Hsize by (destruct Hmap; lia).
  assert (MapSizeX < 2 ^ 32 /\ MapSizeY < 2 ^ 32) as [HX32 HY32]
    by (destruct Hmap as (? & ? & ?); nia).
  destruct (TileXY_on_map cx cy Hmap) as [Hxy Hfit]; [lia|lia|].
  destruct (TileX_TileY_TileXY cx cy Hmap) as [HX HY]; [lia|lia|].
  split; [|split; [exact HX|split; [exact HY|]]].
  - unfold TileArea.get_closest_tile.
    destruct (decide (TileArea.tile ta = INVALID_TILE)); [contradiction|].
    cbv zeta. fold x0 y0 W H.
    rewrite (uint_id (x0 + W - 1)), (uint_id (y0 + H - 1))
      by (unfold is_uint; lia).
    rewrite !ClampU_max_min by lia. reflexivity.
  - rewrite Hxy, INVALID_TILE_eq. unfold is_uint. lia.
Qed.

(** X2: for an area on the map with positive extents, the closest tile to
    any reference cell is a cell of the area. *)
Theorem get_closest_tile_inside {map : Map} (ta : TileArea.t) (t : TileIndex) :
  let x0 := TileX (TileArea.tile ta) in
  let y0 := TileY (TileArea.tile ta) in
  let W := TileArea.w ta in
  let H := TileArea.h ta in
  let c := TileArea.get_closest_tile ta t in
  map_ok -> is_uint (TileArea.tile ta) -> t <> INVALID_TILE ->
  0 < W -> 0 < H -> x0 + W <= MapSizeX -> y0 + H <= MapSizeY ->
  c <> INVALID_TILE /\
  x0 <= TileX c < x0 + W /\ y0 <= TileY c < y0 + H.
Proof.
  intros x0 y0 W H c Hmap Ht _ HW HH Hright Hbottom.
  destruct (get_closest_tile_on_map ta t Hmap Ht HW HH Hright Hbottom)
    as (Hc & HX & HY & _ & Hvalid).
  subst c. rewrite Hc, HX, HY. fold x0 y0 W H. split; [exact Hvalid|]. lia.
Qed.

Lemma get_closest_tile_inside_witness :
  let c := @TileArea.get_closest_tile map64 (TileArea.Build 194 4 2) 647 in
  2 <= @TileX map64 c < 6 /\ 3 <= @TileY map64 c < 5.
Proof.
  apply (@get_closest_tile_inside map64 (TileArea.Build 194 4 2) 647);
    [exact map64_ok | in_range | by_run ..].
Defined.

(** X3: for an area on the map with positive extents, no cell of the area is
    nearer to the reference cell than the closest tile, in columns or in
    rows. *)
Theorem get_closest_tile_nearest {map : Map} (ta : TileArea.t) (t : TileIndex)
    (x y : Z) :
  let x0 := TileX (TileArea.tile ta) in
  let y0 := TileY (TileArea.tile ta) in
  let W := TileArea.w ta in
  let H := TileArea.h ta in
  let c := TileArea.get_closest_tile ta t in
  map_ok -> is_uint (TileArea.tile ta) -> t <> INVALID_TILE ->
  0 < W -> 0 < H -> x0 + W <= MapSizeX -> y0 + H <= MapSizeY ->
  x0 <= x < x0 + W -> y0 <= y < y0 + H ->
  Z.abs (TileX c - TileX t) <= Z.abs (x - TileX t) /\
  Z.abs (TileY c - TileY t) <= Z.abs (y - TileY t).
Proof.
  intros x0 y0 W H c Hmap Ht _ HW HH Hright Hbottom Hx Hy.
  destruct (get_closest_tile_on_map ta t Hmap Ht HW HH Hright Hbottom)
    as (Hc & HX & HY & _).
  subst c. rewrite Hc, HX, HY. fold x0 y0 W H. lia.
Qed.

Lemma get_closest_tile_nearest_witness :
  let c := @TileArea.get_closest_tile map64 (TileArea.Build 194 4 2) 647 in
  Z.abs (@TileX map64 c - @TileX map64 647) <= Z.abs (3 - @TileX map64 647) /\
  Z.abs (@TileY map64 c - @TileY map64 647) <= Z.abs (3 - @TileY map64 647).
Proof.
  apply (@get_closest_tile_nearest map64 (TileArea.Build 194 4 2) 647 3 3);
    [exact map64_ok | in_range | by_run ..].
Defined.

(** X4: for an area on the map with positive extents, asking for the closest
    tile to the closest tile changes nothing. *)
Theorem get_closest_tile_idempotent {map : Map} (ta : TileArea.t)
    (t : TileIndex) :
  map_ok -> is_uint (TileArea.tile ta) -> t <> INVALID_TILE ->
  0 < TileArea.w ta -> 0 < TileArea.h ta ->
  TileX (TileArea.tile ta) + TileArea.w ta <= MapSizeX ->
  TileY (TileArea.tile ta) + TileArea.h ta <= MapSizeY ->
  TileArea.get_closest_tile ta (TileArea.get_closest_tile ta t)
  = TileArea.get_closest_tile ta t.
Proof.
  intros Hmap Ht _ HW HH Hright Hbottom.
  destruct (get_closest_tile_on_map ta t Hmap Ht HW HH Hright Hbottom)
    as (Hc & HX & HY & _).
  rewrite Hc.
  match goal with |- TileArea.get_closest_tile ta ?c = _ =>
    destruct (get_closest_tile_on_map ta c Hmap Ht HW HH Hright Hbottom)
      as (Hc' & _)
  end.
  rewrite Hc', HX, HY. f_equal; lia.
Qed.

Lemma get_closest_tile_idempotent_witness :
  @TileArea.get_closest_tile map64 (TileArea.Build 194 4 2)
    (@TileArea.get_closest_tile map64 (TileArea.Build 194 4 2) 647)
  = @TileArea.get_closest_tile map64 (TileArea.Build 194 4 2) 647.
Proof.
  apply (@get_closest_tile_idempotent map64 (TileArea.Build 194 4 2) 647);
    [exact map64_ok | in_range | by_run ..].
Defined.

(** ** The loop over any area *)

Section AnyArea.
Context {map : Map}.
Variables t W H : Z.
Hypothesis Ht : is_uint t.
Hypothesis HW : 0 < W < 2 ^ 32.
Hypothesis HH : 0 < H < 2 ^ 32.

Local Abbreviation index := (index_at t W).
Local Abbreviation walk := (walk_at t W H).

Lemma Next_walk_at (k : Z) :
  0 <= k -> k + 1 < W * H -> index k <> INVALID_TILE ->
  OrthogonalTileIterator.Next (walk k) = Ok (walk (k + 1)).
Proof using HW HH.
  intros Hk Hk1 Hvalid.
  destruct (position_in_area W H ltac:(lia) k ltac:(lia)) as [Hc Hr].
  destruct (position_in_area W H ltac:(lia) (k + 1) ltac:(lia)) as [Hc1 Hr1].
  unfold walk_at at 1. rewrite Orthogonal_Next_Build by exact Hvalid.
  rewrite (uint_id (W - k mod W - 1)) by (unfold is_uint; lia).
  destruct (successor_position W ltac:(lia) k Hk)
    as [(Hin & Hmod & Hdiv)|(Hend & Hmod & Hdiv)].
  - destruct (Z.ltb_spec 0 (W - k mod W - 1)); [|lia].
    assert (uint (index k + 1) = index (k + 1)) as Htile.
    { unfold index_at, uint. rewrite Zplus_mod_idemp_l, Hmod, Hdiv.
      f_equal. lia. }
    assert (W - k mod W - 1 = W - (k + 1) mod W) as Hcol by (rewrite Hmod; lia).
    assert (H - k / W = H - (k + 1) / W) as Hrow by (rewrite Hdiv; lia).
    rewrite Htile, Hcol, Hrow. reflexivity.
  - destruct (Z.ltb_spec 0 (W - k mod W - 1)); [lia|].
    rewrite (uint_id (H - k / W - 1)) by (unfold is_uint; lia).
    destruct (Z.ltb_spec 0 (H - k / W - 1)); [|lia].
    assert (uint (index k + uint (TileDiffXY 1 1 - W)) = index (k + 1)) as Htile.
    { unfold index_at, uint, TileDiffXY.
      rewrite <- Z.add_mod, Hmod, Hdiv by lia. f_equal. lia. }
    assert (H - k / W - 1 = H - (k + 1) / W) as Hrow by (rewrite Hdiv; lia).
    rewrite Htile, Hrow. unfold walk_at. rewrite Hmod, Z.sub_0_r.
    reflexivity.
Qed.

Lemma Next_walk_last :
  index (W * H - 1) <> INVALID_TILE ->
  exists last,
    OrthogonalTileIterator.Next (walk (W * H - 1)) = Ok last /\
    current last = INVALID_TILE.
Proof using HW HH.
  intros Hvalid.
  assert (0 < W * H) as Hpos by nia.
  destruct (position_in_area W H ltac:(lia) (W * H - 1) ltac:(lia)) as [Hc Hr].
  destruct (successor_position W ltac:(lia) (W * H - 1) ltac:(lia))
    as [(Hin & Hmod & Hdiv)|(Hend & Hmod & Hdiv)];
    replace (W * H - 1 + 1) with (H * W) in Hmod, Hdiv by lia;
    rewrite Z.mod_mul in Hmod by lia; rewrite Z.div_mul in Hdiv by lia;
    [lia|].
  unfold walk_at. rewrite Orthogonal_Next_Build by exact Hvalid.
  replace (W - (W * H - 1) mod W - 1) with 0 by lia.
  replace (H - (W * H - 1) / W - 1) with 0 by lia.
  change (0 <? uint 0) with false. cbv iota.
  eexists. split; reflexivity.
Qed.

(** From the position [k] on, the loop visits the indices of the positions
    that follow, up to the first one that is the invalid index or to the
    end of the area. *)
Lemma loop_from_walk_at (n : nat) :
  forall (k : Z) (fuel : nat),
    0 <= k -> k + Z.of_nat (S n) = W * H -> (S n <= fuel)%nat ->
    exists (m : Z) (last : OrthogonalTileIterator.t),
      0 <= m <= Z.of_nat (S n) /\
      loop_from fuel (walk k) = Some (index <$> seqZ k m, last) /\
      current last = INVALID_TILE /\
      (forall j, k <= j < k + m -> index j <> INVALID_TILE) /\
      (m < Z.of_nat (S n) -> index (k + m) = INVALID_TILE).
Proof using HW HH.
  induction n as [|n IH]; intros k fuel Hk Hsum Hfuel;
    (destruct fuel as [|fuel]; [lia|]);
    (destruct (decide (index k = INVALID_TILE)) as [Hstop|Hvalid];
     [ assert (current (walk k) = INVALID_TILE) as Hdone by exact Hstop;
       exists 0, (walk k); split; [lia|];
       rewrite (loop_from_done _ _ Hdone), seqZ_nil by lia;
       split; [reflexivity|]; split; [exact Hstop|];
       split; [intros j Hj; lia|]; intros _; rewrite Z.add_0_r; exact Hstop
     | ]);
    assert (current (walk k) <> INVALID_TILE) as Hlive by exact Hvalid.
  - replace k with (W * H - 1) in * by lia.
    destruct (Next_walk_last Hvalid) as (last & Hnext & Hlast).
    assert (Next (walk (W * H - 1)) = Ok last) as Hstep by exact Hnext.
    exists 1, last. split; [lia|].
    rewrite (loop_from_step fuel _ _ Hlive Hstep).
    rewrite (loop_from_done fuel last Hlast).
    rewrite seqZ_cons, seqZ_nil by lia.
    split; [reflexivity|]. split; [exact Hlast|].
    split; [|lia].
    intros j Hj. replace j with (W * H - 1) by lia. exact Hvalid.
  - destruct (IH (k + 1) fuel ltac:(lia) ltac:(lia) ltac:(lia))
      as (m & last & Hm & Hloop & Hlast & Hall & Hend).
    assert (Next (walk k) = Ok (walk (k + 1))) as Hstep
      by (apply Next_walk_at; [lia|lia|exact Hvalid]).
    exists (m + 1), last. split; [lia|].
    rewrite (loop_from_step fuel _ _ Hlive Hstep), Hloop.
    rewrite (seqZ_cons k (m + 1)) by lia.
    replace (Z.pred (m + 1)) with m by lia.
    split; [reflexivity|]. split; [exact Hlast|]. split.
    + intros j Hj. destruct (decide (j = k)) as [->|Hne]; [exact Hvalid|].
      apply Hall. lia.
    + intros Hshort. replace (k + (m + 1)) with (k + 1 + m) by lia.
      apply Hend. lia.
Qed.
End AnyArea.

(** X5: the loop over any TileArea, on the map or off it, finishes within
    W*H rounds.  It visits the indices that stepping from the origin
    reaches, position [k] being [k mod W] cells and [k / W] map rows after
    the origin in 32-bit arithmetic, never the invalid index, and it visits
    all W*H positions unless one of these indices is the invalid index, at
    which it stops. *)
Theorem TILE_AREA_LOOP_any_area {map : Map} (ta : TileArea.t) :
  let t := TileArea.tile ta in
  let W := TileArea.w ta in
  let H := TileArea.h ta in
  TileArea.wf ta ->
  exists (n : Z) (cells : list TileIndex) (last : OrthogonalTileIterator.t),
    TILE_AREA_LOOP (Z.to_nat (W * H)) ta = Some (cells, last) /\
    current last = INVALID_TILE /\
    0 <= n <= W * H /\
    cells = index_at t W <$> seqZ 0 n /\
    (INVALID_TILE ∉ cells) /\
    (n < W * H -> index_at t W n = INVALID_TILE).
Proof.
  intros t W H (Ht & HW & HH). fold t W H in Ht, HW, HH.
  unfold is_uint16 in HW, HH.
  destruct (decide (W = 0 \/ H = 0)) as [Hempty|Hfull].
  - exists 0, [], (OrthogonalTileIterator.make ta).
    assert (current (OrthogonalTileIterator.make ta) = INVALID_TILE) as Hcur.
    { cbn. fold W H. destruct Hempty as [-> | ->]; cbn; [reflexivity|].
      rewrite orb_true_r. reflexivity. }
    unfold TILE_AREA_LOOP. rewrite (loop_from_done _ _ Hcur).
    split; [reflexivity|]. split; [exact Hcur|].
    split; [nia|]. split; [reflexivity|].
    split; [apply not_elem_of_nil|]. nia.
  - assert (0 < W /\ 0 < H) as [HWpos HHpos] by lia.
    assert (0 < W * H) as Hpos by nia.
    assert (OrthogonalTileIterator.make ta = walk_at t W H 0) as Hmake.
    { unfold OrthogonalTileIterator.make, walk_at, index_at. fold t W H.
      destruct (Z.eqb_spec W 0); [lia|]. destruct (Z.eqb_spec H 0); [lia|].
      rewrite Zmod_0_l, Zdiv_0_l, Z.mul_0_l, !Z.add_0_r, !Z.sub_0_r.
      rewrite (uint_id t Ht). reflexivity. }
    destruct (loop_from_walk_at t W H ltac:(lia) ltac:(lia)
                (Nat.pred (Z.to_nat (W * H))) 0 (Z.to_nat (W * H)))
      as (m & last & Hm & Hloop & Hlast & Hall & Hend); [lia|lia|lia|].
    replace (Z.of_nat (S (Nat.pred (Z.to_nat (W * H))))) with (W * H)
      in Hm, Hend by lia.
    exists m, (index_at t W <$> seqZ 0 m), last.
    unfold TILE_AREA_LOOP. rewrite Hmake, Hloop.
    split; [reflexivity|]. split; [exact Hlast|]. split; [exact Hm|].
    split; [reflexivity|]. split; [|exact Hend].
    rewrite list_elem_of_fmap. intros (j & Hj & Hin).
    rewrite elem_of_seqZ in Hin. apply (Hall j); [lia|]. symmetry. exact Hj.
Qed.

(** An area that runs off the 64 by 64 map. *)
Lemma TILE_AREA_LOOP_any_area_witness :
  exists (n : Z) (cells : list TileIndex) (last : OrthogonalTileIterator.t),
    @TILE_AREA_LOOP map64 4 (TileArea.Build 63 2 2) = Some (cells, last) /\
    current last = INVALID_TILE /\
    0 <= n <= 4 /\
    cells = @index_at map64 63 2 <$> seqZ 0 n /\
    (INVALID_TILE ∉ cells) /\
    (n < 4 -> @index_at map64 63 2 n = INVALID_TILE).
Proof.
  apply (@TILE_AREA_LOOP_any_area map64 (TileArea.Build 63 2 2)). in_range.
Defined.

(** ** Counting advances *)

Lemma operator_inc_live {I} `{TileIterator I} (this : I) :
  current this <> INVALID_TILE -> operator_inc this = Next this.
Proof.
  intros Hlive. unfold operator_inc.
  destruct (decide (current this = INVALID_TILE)); [contradiction|reflexivity].
Qed.

Lemma operator_inc_n_exhausted {I} `{TileIterator I} (n : nat) (this : I) :
  current this = INVALID_TILE ->
  operator_inc_n (S n) this = Trap at_operator_inc.
Proof.
  intros Hdone. cbn [operator_inc_n].
  rewrite (operator_inc_exhausted this Hdone). reflexivity.
Qed.

Section Advances.
Context {map : Map}.
Variables x0 y0 W H : Z.
Hypothesis Hmap : map_ok.
Hypothesis HW : 0 < W.
Hypothesis HH : 0 < H.
Hypothesis Hx0 : 0 <= x0.
Hypothesis Hy0 : 0 <= y0.
Hypothesis Hright : x0 + W <= MapSizeX.
Hypothesis Hbottom : y0 + H <= MapSizeY.

Local Abbreviation cell := (cell_at x0 y0 W).
Local Abbreviation state := (state_at x0 y0 W H).

Lemma operator_inc_state_at (k : Z) :
  0 <= k -> k + 1 < W * H -> operator_inc (state k) = Ok (state (k + 1)).
Proof using Hmap HW HH Hx0 Hy0 Hright Hbottom.
  intros Hk Hk1.
  destruct (cell_at_exact x0 y0 W H Hmap HW Hx0 Hy0 Hright Hbottom k
              ltac:(lia)) as [_ Hvalid].
  assert (current (state k) <> INVALID_TILE) as Hlive by exact Hvalid.
  rewrite (operator_inc_live _ Hlive).
  apply (Next_state_at x0 y0 W H Hmap HW HH Hx0 Hy0 Hright Hbottom k Hk Hk1).
Qed.

Lemma operator_inc_state_last :
  exists last,
    operator_inc (state (W * H - 1)) = Ok last /\ current last = INVALID_TILE.
Proof using Hmap HW HH Hx0 Hy0 Hright Hbottom.
  assert (0 < W * H) as Hpos by nia.
  destruct (cell_at_exact x0 y0 W H Hmap HW Hx0 Hy0 Hright Hbottom (W * H - 1)
              ltac:(lia)) as [_ Hvalid].
  assert (current (state (W * H - 1)) <> INVALID_TILE) as Hlive by exact Hvalid.
  rewrite (operator_inc_live _ Hlive).
  apply (Next_state_last x0 y0 W H Hmap HW HH Hx0 Hy0 Hright Hbottom).
Qed.

Lemma operator_inc_n_state_at (n : nat) :
  forall k : Z,
    0 <= k -> k + Z.of_nat n < W * H ->
    operator_inc_n n (state k) = Ok (state (k + Z.of_nat n)).
Proof using Hmap HW HH Hx0 Hy0 Hright Hbottom.
  induction n as [|n IH]; intros k Hk Hlt; cbn [operator_inc_n].
  - rewrite Z.add_0_r. reflexivity.
  - rewrite operator_inc_state_at by lia. cbn.
    rewrite IH by lia. do 2 f_equal. lia.
Qed.

Lemma operator_inc_n_state_end (n : nat) :
  forall k : Z,
    0 <= k -> k + Z.of_nat (S n) = W * H ->
    exists last,
      operator_inc_n (S n) (state k) = Ok last /\ current last = INVALID_TILE.
Proof using Hmap HW HH Hx0 Hy0 Hright Hbottom.
  induction n as [|n IH]; intros k Hk Hsum.
  - replace k with (W * H - 1) by lia.
    destruct operator_inc_state_last as (last & Hstep & Hlast).
    exists last. split; [|exact Hlast].
    cbn [operator_inc_n]. rewrite Hstep. reflexivity.
  - destruct (IH (k + 1) ltac:(lia) ltac:(lia)) as (last & Hrun & Hlast).
    exists last. split; [|exact Hlast].
    change (operator_inc_n (S (S n)) (state k))
      with (operator_inc (state k) ≫= operator_inc_n (S n)).
    rewrite operator_inc_state_at by lia. exact Hrun.
Qed.

Lemma operator_inc_n_state_past (n : nat) :
  forall k : Z,
    0 <= k < W * H -> W * H < k + Z.of_nat n ->
    operator_inc_n n (state k) = Trap at_operator_inc.
Proof using Hmap HW HH Hx0 Hy0 Hright Hbottom.
  induction n as [|n IH]; intros k Hk Hpast; [lia|].
  change (operator_inc_n (S n) (state k))
    with (operator_inc (state k) ≫= operator_inc_n n).
  destruct (decide (k + 1 < W * H)) as [Hin|Hlast].
  - rewrite operator_inc_state_at by lia. cbn. apply IH; lia.
  - replace k with (W * H - 1) by lia.
    destruct operator_inc_state_last as (last & -> & Hdone). cbn.
    destruct n as [|n]; [lia|]. apply operator_inc_n_exhausted. exact Hdone.
Qed.
End Advances.

(** X6: on an iterator constructed from an area on the map with positive
    extents, [n] advances with n < W*H succeed and leave the iterator on the
    cell of column [n mod W] and row [n / W] of the area; W*H advances
    succeed and leave it exhausted; any further advance stops at the
    assertion of [operator++]. *)
Theorem advances_until_exhausted {map : Map} (ta : TileArea.t) (n : nat) :
  let x0 := TileX (TileArea.tile ta) in
  let y0 := TileY (TileArea.tile ta) in
  let W := TileArea.w ta in
  let H := TileArea.h ta in
  let run := operator_inc_n n (OrthogonalTileIterator.make ta) in
  map_ok -> is_uint (TileArea.tile ta) ->
  0 < W -> 0 < H -> x0 + W <= MapSizeX -> y0 + H <= MapSizeY ->
  (Z.of_nat n < W * H ->
   exists it, run = Ok it /\
     current it = TileXY (x0 + Z.of_nat n mod W) (y0 + Z.of_nat n / W) /\
     current it <> INVALID_TILE) /\
  (Z.of_nat n = W * H ->
   exists it, run = Ok it /\ current it = INVALID_TILE) /\
  (W * H < Z.of_nat n -> run = Trap at_operator_inc).
Proof.
  intros x0 y0 W H run Hmap Ht HW HH Hright Hbottom.
  destruct (origin_on_map ta Hmap Ht HW HH Hright Hbottom)
    as (Hx0 & Hy0 & _).
  fold x0 y0 in Hx0, Hy0.
  assert (0 < MapSizeX) as Hx by (destruct Hmap; lia).
  assert (0 < W * H) as Hpos by nia.
  subst run. rewrite (make_state_at_0 ta Hx Ht HW HH). fold x0 y0 W H.
  split; [|split].
  - intros Hlt. exists (state_at x0 y0 W H (Z.of_nat n)).
    rewrite (operator_inc_n_state_at x0 y0 W H Hmap HW HH Hx0 Hy0 Hright
               Hbottom n 0) by lia.
    split; [reflexivity|]. split; [reflexivity|].
    apply (cell_at_exact x0 y0 W H Hmap HW Hx0 Hy0 Hright Hbottom). lia.
  - intros Heq. destruct n as [|n]; [lia|].
    apply (operator_inc_n_state_end x0 y0 W H Hmap HW HH Hx0 Hy0 Hright
             Hbottom n 0); lia.
  - intros Hpast.
    apply (operator_inc_n_state_past x0 y0 W H Hmap HW HH Hx0 Hy0 Hright
             Hbottom n 0); lia.
Qed.

Lemma advances_until_exhausted_witness :
  let ta := TileArea.Build 194 4 2 in
  (exists it, operator_inc_n 5 (@OrthogonalTileIterator.make map64 ta) = Ok it /\
     current it = @TileXY map64 (2 + 5 mod 4) (3 + 5 / 4) /\
     current it <> INVALID_TILE) /\
  (exists it, operator_inc_n 8 (@OrthogonalTileIterator.make map64 ta) = Ok it /\
     current it = INVALID_TILE) /\
  operator_inc_n 9 (@OrthogonalTileIterator.make map64 ta)
    = Trap at_operator_inc.
Proof.
  intros ta.
  destruct (@advances_until_exhausted map64 ta 5) as (Hlive & _ & _);
    [exact map64_ok | in_range | by_run .. |].
  destruct (@advances_until_exhausted map64 ta 8) as (_ & Hend & _);
    [exact map64_ok | in_range | by_run .. |].
  destruct (@advances_until_exhausted map64 ta 9) as (_ & _ & Hpast);
    [exact map64_ok | in_range | by_run .. |].
  split; [apply Hlive; by_run|]. split; [apply Hend; by_run|].
  apply Hpast; by_run.
Defined.

(** ** Trains leaving a depot *)

Lemma fract_range (z : Z) : 0 <= Z.land z 0x0F < 16.
Proof.
  change 0x0F with (Z.ones 4). rewrite Z.land_ones by lia.
  apply Z.mod_pos_bound. lia.
Qed.

(** A step that stays within the tile moves the fractional coordinate by
    as much. *)
Lemma fract_step (z d : Z) :
  0 <= Z.land z 0x0F + d < 16 -> Z.land (z + d) 0x0F = Z.land z 0x0F + d.
Proof.
  change 0x0F with (Z.ones 4). rewrite !Z.land_ones by lia.
  change (2 ^ 4) with 16. intros Hin.
  symmetry. apply (Z.mod_unique_pos _ _ (z / 16)); [exact Hin|].
  pose proof (Z.div_mod z 16 ltac:(lia)). lia.
Qed.

Section Leaving.
Variable DiagDirection_value : DiagDirection -> nat.
Variable GetRailDepotDirection : TileIndex -> DiagDirection.
Variable CalcNextVehicleOffset : Train.t -> Z.

(** The enumerators are numbered from 0 in the order NE, SE, SW, NW. *)
Hypothesis Hvalue :
  DiagDirection_value DIAGDIR_NE = 0%nat /\
  DiagDirection_value DIAGDIR_SE = 1%nat /\
  DiagDirection_value DIAGDIR_SW = 2%nat /\
  DiagDirection_value DIAGDIR_NW = 3%nat.

Local Abbreviation Ticks :=
  (TicksToLeaveDepot DiagDirection_value GetRailDepotDirection
     CalcNextVehicleOffset).
Local Abbreviation entry table dir := (at_dir DiagDirection_value table dir).

(** X7: when a train in front of a depot moves on by the leave offset of the
    depot's direction, staying within the tile, and the offset of its next
    wagon is unchanged, [TicksToLeaveDepot] goes down by one. *)
Theorem TicksToLeaveDepot_step (v v' : Train.t) :
  let dir := GetRailDepotDirection (Train.tile v) in
  let dx := entry _deltacoord_leaveoffset_x dir in
  let dy := entry _deltacoord_leaveoffset_y dir in
  Train.tile v' = Train.tile v ->
  CalcNextVehicleOffset v' = CalcNextVehicleOffset v ->
  Train.x_pos v' = Train.x_pos v + dx ->
  Train.y_pos v' = Train.y_pos v + dy ->
  0 <= Z.land (Train.x_pos v) 0x0F + dx < 16 ->
  0 <= Z.land (Train.y_pos v) 0x0F + dy < 16 ->
  Ticks v' = Ticks v - 1.
Proof using Hvalue.
  destruct Hvalue as (HNE & HSE & HSW & HNW).
  intros dir dx dy Htile Hlen Hx Hy Hxin Hyin.
  unfold TicksToLeaveDepot. rewrite Htile, Hlen, Hx, Hy.
  rewrite (fract_step _ dx Hxin), (fract_step _ dy Hyin).
  subst dx dy. fold dir. unfold at_dir.
  destruct dir; rewrite ?HNE, ?HSE, ?HSW, ?HNW; cbn; lia.
Qed.

(** X8: for a wagon offset from 0 to 239, the point at which
    [VehicleEnter_Misc] activates the following wagon is the point of the
    depot's centre line at which [TicksToLeaveDepot] is 0. *)
Theorem TicksToLeaveDepot_zero_at_leave_point (v : Train.t) :
  let dir := GetRailDepotDirection (Train.tile v) in
  let length := CalcNextVehicleOffset v in
  let fract_coord_x := Z.land (Train.x_pos v) 0x0F in
  let fract_coord_y := Z.land (Train.y_pos v) 0x0F in
  0 <= length < 240 ->
  (fract_coord_x = fract_coord_leave_x DiagDirection_value dir length /\
   fract_coord_y = fract_coord_leave_y DiagDirection_value dir length)
  <->
  (Ticks v = 0 /\
   (entry _deltacoord_leaveoffset_x dir = 0 ->
    fract_coord_x = entry _fractcoords_enter_x dir) /\
   (entry _deltacoord_leaveoffset_y dir = 0 ->
    fract_coord_y = entry _fractcoords_enter_y dir)).
Proof using Hvalue.
  destruct Hvalue as (HNE & HSE & HSW & HNW).
  intros dir length fract_coord_x fract_coord_y Hlen.
  pose proof (fract_range (Train.x_pos v)) as Hfx.
  pose proof (fract_range (Train.y_pos v)) as Hfy.
  fold fract_coord_x in Hfx. fold fract_coord_y in Hfy.
  unfold TicksToLeaveDepot, fract_coord_leave_x, fract_coord_leave_y, at_dir,
    uint8.
  fold dir length fract_coord_x fract_coord_y.
  change (2 ^ 8) with 256.
  destruct dir; rewrite ?HNE, ?HSE, ?HSW, ?HNW; cbn [nth
    _fractcoords_enter_x _fractcoords_enter_y
    _deltacoord_leaveoffset_x _deltacoord_leaveoffset_y];
    Z.div_mod_to_equations; lia.
Qed.
End Leaving.

(** A train on a tile whose depot faces north-east, with the next wagon four
    units behind: three ticks before the leave point, then two. *)
Lemma TicksToLeaveDepot_step_witness :
  let Ticks := TicksToLeaveDepot DiagDirection_order
                 (fun _ => DIAGDIR_NE) (fun _ => 3) in
  Ticks (Train.Build 100 88 120) = Ticks (Train.Build 100 89 120) - 1.
Proof.
  intros Ticks.
  apply (TicksToLeaveDepot_step DiagDirection_order (fun _ => DIAGDIR_NE)
           (fun _ => 3)); try reflexivity.
  - repeat split; reflexivity.
  - by_run.
  - by_run.
Defined.

Lemma TicksToLeaveDepot_zero_at_leave_point_witness :
  TicksToLeaveDepot DiagDirection_order (fun _ => DIAGDIR_NE) (fun _ => 3)
    (Train.Build 100 86 120) = 0.
Proof.
  apply (TicksToLeaveDepot_zero_at_leave_point DiagDirection_order
           (fun _ => DIAGDIR_NE) (fun _ => 3)
           ltac:(repeat split; reflexivity) (Train.Build 100 86 120)
           ltac:(lia)).
  split; reflexivity.
Defined.

(** ** The loop and the queries together *)

(** The loop over an area on the map, position by position. *)
Lemma TILE_AREA_LOOP_on_map {map : Map} (ta : TileArea.t) (fuel : nat) :
  let x0 := TileX (TileArea.tile ta) in
  let y0 := TileY (TileArea.tile ta) in
  let W := TileArea.w ta in
  let H := TileArea.h ta in
  map_ok -> is_uint (TileArea.tile ta) ->
  0 < W -> 0 < H -> x0 + W <= MapSizeX -> y0 + H <= MapSizeY ->
  (Z.to_nat (W * H) <= fuel)%nat ->
  exists last,
    TILE_AREA_LOOP fuel ta = Some (cell_at x0 y0 W <$> seqZ 0 (W * H), last) /\
    current last = INVALID_TILE.
Proof.
  intros x0 y0 W H Hmap Ht HW HH Hright Hbottom Hfuel.
  destruct (origin_on_map ta Hmap Ht HW HH Hright Hbottom)
    as (Hx0 & Hy0 & _).
  fold x0 y0 in Hx0, Hy0.
  assert (0 < MapSizeX) as Hx by (destruct Hmap; lia).
  assert (0 < W * H) as Hpos by nia.
  unfold TILE_AREA_LOOP. rewrite (make_state_at_0 ta Hx Ht HW HH).
  fold x0 y0 W H.
  destruct (loop_from_state_at x0 y0 W H Hmap HW HH Hx0 Hy0 Hright Hbottom
              (Nat.pred (Z.to_nat (W * H))) 0 fuel)
    as (last & Hloop & Hlast); [lia|lia|lia|].
  exists last. split; [|exact Hlast].
  rewrite Hloop.
  replace (Z.of_nat (S (Nat.pred (Z.to_nat (W * H))))) with (W * H) by lia.
  reflexivity.
Qed.

(** X9: for an area on the map with positive extents, the cells that the
    loop visits are the cells that are their own closest tile. *)
Theorem visited_iff_own_closest_tile {map : Map} (ta : TileArea.t)
    (fuel : nat) :
  let x0 := TileX (TileArea.tile ta) in
  let y0 := TileY (TileArea.tile ta) in
  let W := TileArea.w ta in
  let H := TileArea.h ta in
  map_ok -> is_uint (TileArea.tile ta) ->
  0 < W -> 0 < H -> x0 + W <= MapSizeX -> y0 + H <= MapSizeY ->
  (Z.to_nat (W * H) <= fuel)%nat ->
  exists cells last,
    TILE_AREA_LOOP fuel ta = Some (cells, last) /\
    forall c : TileIndex,
      is_uint c -> c <> INVALID_TILE ->
      (c ∈ cells <-> TileArea.get_closest_tile ta c = c).
Proof.
  intros x0 y0 W H Hmap Ht HW HH Hright Hbottom Hfuel.
  destruct (TILE_AREA_LOOP_on_map ta fuel Hmap Ht HW HH Hright Hbottom Hfuel)
    as (last & Hloop & _).
  fold x0 y0 W H in Hloop.
  exists (cell_at x0 y0 W <$> seqZ 0 (W * H)), last.
  split; [exact Hloop|].
  intros c Hc _.
  assert (0 < MapSizeX) as Hx by (destruct Hmap; lia).
  destruct (origin_on_map ta Hmap Ht HW HH Hright Hbottom)
    as (Hx0 & Hy0 & _).
  fold x0 y0 in Hx0, Hy0.
  destruct (get_closest_tile_on_map ta c Hmap Ht HW HH Hright Hbottom)
    as (Hrun & HX & HY & _).
  fold x0 y0 W H in Hrun, HX, HY.
  rewrite (cells_elem_of x0 y0 W H HW HH c). split.
  - intros (x & y & Hxr & Hyr & ->).
    destruct (TileX_TileY_TileXY x y Hmap) as [Hcx Hcy]; [lia|lia|].
    rewrite Hrun, Hcx, Hcy. f_equal; lia.
  - intros Hfix. rewrite Hrun in Hfix.
    exists (TileX c), (TileY c).
    rewrite <- Hfix at 1 2 3 4. rewrite HX, HY.
    split; [lia|]. split; [lia|].
    symmetry. apply TileXY_TileX_TileY; assumption.
Qed.

Lemma visited_iff_own_closest_tile_witness :
  exists cells last,
    @TILE_AREA_LOOP map64 8 (TileArea.Build 194 4 2) = Some (cells, last) /\
    forall c : TileIndex,
      is_uint c -> c <> INVALID_TILE ->
      (c ∈ cells <->
       @TileArea.get_closest_tile map64 (TileArea.Build 194 4 2) c = c).
Proof.
  apply (@visited_iff_own_closest_tile map64 (TileArea.Build 194 4 2) 8);
    [exact map64_ok | in_range | by_run .. | vm_compute; lia].
Defined.
